(** * curl-mcp-server: the [curl_request] handler

    A shallow embedding of [handleCurlRequest] of [index.js], in its two
    revisions (server version 1.2.0 and server version 1.1.0), and of the
    parts of the JavaScript run time it calls: string operations,
    [JSON.parse] and [JSON.stringify], [new URL] and [child_process.exec].

    JavaScript strings are sequences of UTF-16 code units.  The arguments
    of a call have the types that the input schema declares, which the
    server itself does not check, and the numbers among them ([timeout],
    [max_response_size]) are integers.  What the run time decides outside the program (whether a URL
    parses, what the child process prints, how a number that is not a safe
    integer is rendered) is a field of the [Host] record, over which the
    statements are quantified.

    The definitions come first: strings, the host, exceptions, the command
    line, JSON, the two handlers, a reading of command lines by the shell,
    and the requests and responses used as examples.  The statements follow,
    grouped by the stage of the handler they are about. *)

From Stdlib Require Import ZArith NArith String Ascii DecimalString Bool Lia List Sorted.
Import ListNotations.
Local Open Scope Z_scope.

(** ** Strings *)

Definition code_unit := N.
Definition jsstring := list code_unit.

(** A string literal of the source (ASCII only). *)
Definition lit (s : string) : jsstring := map N_of_ascii (list_ascii_of_string s).

Definition DQUOTE : code_unit := 34%N.
Definition SQUOTE : code_unit := 39%N.
Definition BACKSLASH : code_unit := 92%N.
Definition NEWLINE : code_unit := 10%N.

(** [s.length] *)
Definition strlen (s : jsstring) : Z := Z.of_nat (length s).

Fixpoint jsstring_eqb (a b : jsstring) : bool :=
  match a, b with
  | [], [] => true
  | x :: a', y :: b' => N.eqb x y && jsstring_eqb a' b'
  | _, _ => false
  end.

(** [s.substring(start, stop)]: both indices are clamped to [0, s.length]
    and swapped when out of order. *)
Definition substring (s : jsstring) (start stop : Z) : jsstring :=
  let clamp x := Z.min (Z.max x 0) (strlen s) in
  let from := Z.min (clamp start) (clamp stop) in
  let upto := Z.max (clamp start) (clamp stop) in
  firstn (Z.to_nat (upto - from)) (skipn (Z.to_nat from) s).

(** [pieces.join(sep)] *)
Fixpoint join (sep : jsstring) (pieces : list jsstring) : jsstring :=
  match pieces with
  | [] => []
  | [p] => p
  | p :: rest => p ++ sep ++ join sep rest
  end.

(** [arr.includes(x)] on an array of strings. *)
Definition includes (arr : list jsstring) (x : jsstring) : bool :=
  existsb (jsstring_eqb x) arr.

(** The decimal numeral of an integer. *)
Definition numeral (n : Z) : jsstring := lit (NilZero.string_of_int (Z.to_int n)).

(** The number that a positive integer of a JSON text becomes: the double
    nearest to it, ties to the even significand; [None] is [Infinity]. *)
Definition to_double (n : Z) : option Z :=
  let bits := Z.log2 n + 1 in
  if bits <=? 53 then Some n
  else
    let shift := bits - 53 in
    let q := Z.shiftr n shift in
    let r := n - Z.shiftl q shift in
    let half := 2 ^ (shift - 1) in
    let q' := if (half <? r) || ((r =? half) && Z.odd q) then q + 1 else q in
    let x := Z.shiftl q' shift in
    if 2 ^ 1024 <=? x then None else Some x.

(** Whether the integer [c] is read as the double [x], for [x] at least
    2^53: [c] lies between the midpoints to the neighbours of [x], the
    midpoints included when the significand of [x] is even. *)
Definition reads_as (x c : Z) : bool :=
  let e := Z.log2 x - 52 in
  let m := Z.shiftr x e in
  let below := if m =? 2 ^ 52 then 2 ^ (e - 1) else 2 ^ e in
  let above := 2 ^ e in
  if Z.even m
  then (2 * x - below <=? 2 * c) && (2 * c <=? 2 * x + above)
  else (2 * x - below <? 2 * c) && (2 * c <? 2 * x + above).

(** The multiple of [10^p] that is read as [x] and is nearest to [x], with
    an even multiplier when two are as near. *)
Definition nearest_multiple (x p : Z) : option Z :=
  let t := 10 ^ p in
  let lo := (x / t) * t in
  let hi := lo + t in
  if lo =? x then Some x
  else
    let take_lo := (0 <? lo) && reads_as x lo in
    let take_hi := reads_as x hi in
    if take_lo && take_hi then
      if x - lo <? hi - x then Some lo
      else if hi - x <? x - lo then Some hi
      else if Z.even (x / t) then Some lo else Some hi
    else if take_lo then Some lo
    else if take_hi then Some hi
    else None.

(** The integer with the fewest significant digits that is read as [x]. *)
Fixpoint shortest (fuel : nat) (x p best : Z) : Z :=
  match fuel with
  | O => best
  | S fuel' =>
      match nearest_multiple x p with
      | Some c => shortest fuel' x (p + 1) c
      | None => best
      end
  end.

Fixpoint strip_zeros (reversed : jsstring) : jsstring :=
  match reversed with
  | c :: r => if N.eqb c 48 then strip_zeros r else reversed
  | [] => []
  end.

(** The digits [d1 d2 ... dk] of [c] without the zeros at the end, as
    [d1.d2...dk] followed by [e+] and the exponent. *)
Definition exponential (c : Z) : jsstring :=
  let digits := numeral c in
  match rev (strip_zeros (rev digits)) with
  | [] => digits
  | d :: more =>
      [d] ++ match more with [] => [] | _ => lit "." ++ more end
      ++ lit "e+" ++ numeral (Z.of_nat (length digits) - 1)
  end.

Definition Number_toString_positive (n : Z) : jsstring :=
  if n <=? 2 ^ 53 then numeral n
  else
    match to_double n with
    | None => lit "Infinity"
    | Some x =>
        let c := shortest 400 x 1 x in
        if c <? 10 ^ 21 then numeral c else exponential c
    end.

(** [String(n)], also [`${n}`], for the number that the integer [n] of a
    JSON text stands for: the decimal numeral of [n] up to 2^53 in
    magnitude; above, the shortest numeral that is read as the double
    nearest to [n], in exponential notation from 10^21 on. *)
Definition Number_toString (n : Z) : jsstring :=
  if n <? 0 then lit "-" ++ Number_toString_positive (- n)
  else Number_toString_positive n.

(** [data.replace(/'/g, "\\'")]: every single quote is replaced by the two
    characters backslash, single quote. *)
Definition replace_quotes (data : jsstring) : jsstring :=
  flat_map (fun c => if N.eqb c SQUOTE then [BACKSLASH; SQUOTE] else [c]) data.

Definition starts_with (prefix s : jsstring) : bool :=
  jsstring_eqb prefix (firstn (length prefix) s).

(** ** The host: what the run time decides outside the program *)

Definition is_alpha (c : code_unit) : bool :=
  ((65 <=? c) && (c <=? 90) || (97 <=? c) && (c <=? 122))%N.

Definition is_digit (c : code_unit) : bool := ((48 <=? c) && (c <=? 57))%N.

Definition is_scheme_char (c : code_unit) : bool :=
  is_alpha c || is_digit c || N.eqb c 43 || N.eqb c 45 || N.eqb c 46.

Fixpoint drop_while (p : code_unit -> bool) (s : jsstring) : jsstring :=
  match s with
  | [] => []
  | c :: r => if p c then drop_while p r else s
  end.

Fixpoint scheme_tail (s : jsstring) : bool :=
  match s with
  | [] => false
  | c :: r => if N.eqb c 58 then true
              else if is_scheme_char c then scheme_tail r else false
  end.

(** A necessary condition for [new URL(s)] (no base URL) to succeed: after
    leading C0 controls and spaces are stripped and tabs and newlines are
    removed, the input starts with a scheme, a letter followed by letters,
    digits, [+], [-] or [.], and then a colon.  Without one the URL parser
    ends in its "no scheme" state and fails. *)
Definition has_scheme (s : jsstring) : bool :=
  match filter (fun c => negb (N.eqb c 9 || N.eqb c 10 || N.eqb c 13))
               (drop_while (fun c => (c <=? 32)%N) s) with
  | [] => false
  | c :: r => is_alpha c && scheme_tail r
  end.

(** What a child process has written, and its exit status, when it ends or
    is killed. *)
Record ProcessOutput := {
  exit_code : Z;
  proc_stdout : jsstring;
  proc_stderr : jsstring
}.

Record Host := {
  (** [new URL(s)] returns rather than throws *)
  URL_parses : jsstring -> bool;
  URL_parses_scheme : forall s, URL_parses s = true -> has_scheme s = true;
  (** [String(Number(lexeme))] for a JSON number lexeme that is not a safe
      integer ([null] where the value is not finite) *)
  Number_render : jsstring -> jsstring;
  (** running a command line through the shell *)
  spawn : jsstring -> ProcessOutput
}.

(** ** Exceptions and the log of spawned commands *)

(** A thrown [Error]: its [message] and, for errors of [exec], the [stderr]
    property. *)
Record JsError := {
  message : jsstring;
  error_stderr : option jsstring
}.

(** A computation that may throw and that records the command lines handed
    to [exec]. *)
Definition Exec (A : Type) : Type :=
  list jsstring -> (JsError + A) * list jsstring.

Definition ret {A} (a : A) : Exec A := fun log => (inr a, log).

Definition throw {A} (e : JsError) : Exec A := fun log => (inl e, log).

Definition bind {A B} (m : Exec A) (k : A -> Exec B) : Exec B :=
  fun log =>
    match m log with
    | (inl e, log') => (inl e, log')
    | (inr a, log') => k a log'
    end.

Definition try_catch {A} (body : Exec A) (handler : JsError -> Exec A) : Exec A :=
  fun log =>
    match body log with
    | (inl e, log') => handler e log'
    | (inr a, log') => (inr a, log')
    end.

Notation "x <- m ;; k" := (bind m (fun x => k))
  (at level 61, m at next level, right associativity).

(** [new Error(msg)] *)
Definition Error (msg : jsstring) : JsError :=
  {| message := msg; error_stderr := None |}.

(** [Buffer.byteLength(s, 'utf8')]: one byte for a code unit below 128,
    two below 2048, four for a surrogate pair and three for any other code
    unit, a lone surrogate included. *)
Fixpoint utf8_length (s : jsstring) : Z :=
  match s with
  | [] => 0
  | c :: r =>
      if (c <? 128)%N then 1 + utf8_length r
      else if (c <? 2048)%N then 2 + utf8_length r
      else if ((55296 <=? c) && (c <=? 56319))%N then
        match r with
        | d :: r' =>
            if ((56320 <=? d) && (d <=? 57343))%N then 4 + utf8_length r'
            else 3 + utf8_length r
        | [] => 3
        end
      else 3 + utf8_length r
  end.

(** [await execAsync(command, { maxBuffer })], that is Node's
    [child_process.exec] as a promise: it resolves with the two output
    streams when the child exits with status 0 and neither stream holds
    more than [maxBuffer] bytes; otherwise it rejects with an error that
    carries the collected [stderr]. *)
Definition execAsync (h : Host) (command : jsstring) (maxBuffer : Z)
  : Exec (jsstring * jsstring) :=
  fun log =>
    let p := spawn h command in
    let log' := log ++ [command] in
    if utf8_length (proc_stdout p) >? maxBuffer then
      (inl {| message := lit "stdout maxBuffer length exceeded";
              error_stderr := Some (proc_stderr p) |}, log')
    else if utf8_length (proc_stderr p) >? maxBuffer then
      (inl {| message := lit "stderr maxBuffer length exceeded";
              error_stderr := Some (proc_stderr p) |}, log')
    else if exit_code p =? 0 then
      (inr (proc_stdout p, proc_stderr p), log')
    else
      (inl {| message := lit "Command failed: " ++ command ++ [NEWLINE] ++ proc_stderr p;
              error_stderr := Some (proc_stderr p) |}, log').

(** ** The arguments of [curl_request] *)

(** A field that the caller may leave out is an [option]; the destructuring
    pattern of the handler supplies the default. *)
Record Args := {
  url : jsstring;
  method : option jsstring;
  headers : option (list (jsstring * jsstring));
  data : option jsstring;
  timeout : option Z;
  follow_redirects : option bool;
  include_headers : option bool;
  user_agent : option jsstring;
  max_response_size : option Z
}.

Definition default {A} (d : A) (o : option A) : A :=
  match o with Some a => a | None => d end.

(** Truthiness of [data]: absent and empty are both falsy. *)
Definition truthy (o : option jsstring) : bool :=
  match o with
  | Some (_ :: _) => true
  | _ => false
  end.

(** ** Building the command line (both revisions) *)

Definition curlCmd (a : Args) : list jsstring :=
  let method := default (lit "GET") (method a) in
  let headers := default [] (headers a) in
  let timeout := default 30 (timeout a) in
  let follow_redirects := default true (follow_redirects a) in
  let include_headers := default false (include_headers a) in
  let user_agent := default (lit "curl-mcp-server/1.1.0") (user_agent a) in
  [lit "curl"]
  ++ [lit "--max-time " ++ Number_toString timeout]
  ++ [lit "--user-agent " ++ [DQUOTE] ++ user_agent ++ [DQUOTE]]
  ++ [lit "--silent"]
  ++ [lit "--show-error"]
  ++ (if follow_redirects then [lit "--location"] else [])
  ++ (if include_headers then [lit "--include"] else [])
  ++ [lit "--request " ++ method]
  ++ map (fun kv => lit "--header " ++ [DQUOTE] ++ fst kv ++ lit ": " ++ snd kv ++ [DQUOTE])
         headers
  ++ (if truthy (data a) && includes [lit "POST"; lit "PUT"; lit "PATCH"] method
      then [lit "--data " ++ [SQUOTE] ++ replace_quotes (default [] (data a)) ++ [SQUOTE]]
      else [])
  ++ [[DQUOTE] ++ url a ++ [DQUOTE]].

Definition command (a : Args) : jsstring := join (lit " ") (curlCmd a).

(** The [maxBuffer] option passed to [exec]. *)
Definition maxBuffer : Z := 10 * 1024 * 1024.

(** The first statements of the [try] block, up to the result of [exec]:
    URL validation, command assembly, execution. *)
Definition run_curl (h : Host) (a : Args) : Exec (jsstring * jsstring) :=
  _ <- (if URL_parses h (url a) then ret tt
        else throw (Error (lit "Invalid URL: " ++ url a))) ;;
  execAsync h (command a) maxBuffer.

(** Byte truncation: [response], [truncated] and [originalSize] after the
    [if (response.length > max_response_size)] statement. *)
Definition byte_truncate (stdout : jsstring) (max_response_size : Z)
  : jsstring * bool * Z :=
  let response := stdout in
  let originalSize := strlen stdout in
  if strlen response >? max_response_size
  then (substring response 0 max_response_size, true, originalSize)
  else (response, false, originalSize).

(** ** JSON values *)

(** The values [JSON.parse] can return.  A number is [JInt] when it is an
    integer of magnitude at most 2^53 - 1, which [JSON.stringify] prints as
    its decimal numeral; any other number keeps the lexeme it was read from
    and is printed by the host.  The entries of an object are held in the
    order in which [Object.entries] and [JSON.stringify] enumerate them. *)
Unset Elimination Schemes.
Inductive JsValue :=
| JNull
| JBool (b : bool)
| JInt (n : Z)
| JNum (lexeme : jsstring)
| JString (s : jsstring)
| JArray (elements : list JsValue)
| JObject (entries : list (jsstring * JsValue)).
Set Elimination Schemes.

Definition digit_step (acc : N) (c : code_unit) : N := (acc * 10 + (c - 48))%N.

Definition digits_value (s : jsstring) : N := fold_left digit_step s 0%N.

(** An array index is the canonical numeral of an integer below 2^32 - 1. *)
Definition array_index (k : jsstring) : option N :=
  match k with
  | [] => None
  | c :: r =>
      if forallb is_digit k
         && (negb (N.eqb c 48) || match r with [] => true | _ => false end)
      then if (digits_value k <=? 4294967294)%N then Some (digits_value k) else None
      else None
  end.

Fixpoint has_key (k : jsstring) (es : list (jsstring * JsValue)) : bool :=
  match es with
  | [] => false
  | (k', _) :: r => jsstring_eqb k k' || has_key k r
  end.

Fixpoint replace_value (k : jsstring) (v : JsValue) (es : list (jsstring * JsValue))
  : list (jsstring * JsValue) :=
  match es with
  | [] => []
  | (k', v') :: r =>
      if jsstring_eqb k k' then (k', v) :: r else (k', v') :: replace_value k v r
  end.

Fixpoint insert_index (n : N) (k : jsstring) (v : JsValue)
  (es : list (jsstring * JsValue)) : list (jsstring * JsValue) :=
  match es with
  | [] => [(k, v)]
  | (k', v') :: r =>
      match array_index k' with
      | Some n' => if (n' <? n)%N then (k', v') :: insert_index n k v r
                   else (k, v) :: es
      | None => (k, v) :: es
      end
  end.

(** Defining the own property [k] of an object: an existing key keeps its
    place and takes the new value; a new array index goes among the array
    indices, which come first in ascending order; any other new key goes
    last. *)
Definition object_put (k : jsstring) (v : JsValue) (es : list (jsstring * JsValue))
  : list (jsstring * JsValue) :=
  if has_key k es then replace_value k v es
  else match array_index k with
       | Some n => insert_index n k v es
       | None => es ++ [(k, v)]
       end.

(** [k1] may stand before [k2] among the own properties of an object:
    array indices in ascending order, then the other keys, no key twice. *)
Definition key_before (k1 k2 : jsstring) : Prop :=
  match array_index k1, array_index k2 with
  | Some i, Some j => (i < j)%N
  | Some _, None => True
  | None, Some _ => False
  | None, None => k1 <> k2
  end.

Definition own_order (es : list (jsstring * JsValue)) : Prop :=
  StronglySorted key_before (map fst es).

(** [Object.fromEntries(pairs)] *)
Definition Object_fromEntries (pairs : list (jsstring * JsValue))
  : list (jsstring * JsValue) :=
  fold_left (fun o kv => object_put (fst kv) (snd kv) o) pairs [].

(** ** [JSON.stringify(value, null, 2)] *)

Definition hex_digit (d : N) : code_unit :=
  if (d <? 10)%N then (48 + d)%N else (87 + d)%N.

(** The escape [\uXXXX] with lowercase digits. *)
Definition unicode_escape (c : code_unit) : jsstring :=
  [BACKSLASH; 117%N;
   hex_digit ((c / 4096) mod 16); hex_digit ((c / 256) mod 16);
   hex_digit ((c / 16) mod 16); hex_digit (c mod 16)]%N.

Definition is_high_surrogate (c : code_unit) : bool :=
  ((55296 <=? c) && (c <=? 56319))%N.

Definition is_low_surrogate (c : code_unit) : bool :=
  ((56320 <=? c) && (c <=? 57343))%N.

Definition escape_unit (c : code_unit) : jsstring :=
  if N.eqb c 8 then [BACKSLASH; 98%N]
  else if N.eqb c 9 then [BACKSLASH; 116%N]
  else if N.eqb c 10 then [BACKSLASH; 110%N]
  else if N.eqb c 12 then [BACKSLASH; 102%N]
  else if N.eqb c 13 then [BACKSLASH; 114%N]
  else if N.eqb c DQUOTE then [BACKSLASH; DQUOTE]
  else if N.eqb c BACKSLASH then [BACKSLASH; BACKSLASH]
  else if (c <? 32)%N then unicode_escape c
  else [c].

Fixpoint quote_units (s : jsstring) : jsstring :=
  match s with
  | [] => []
  | c :: rest =>
      if is_high_surrogate c then
        match rest with
        | d :: rest' =>
            if is_low_surrogate d then c :: d :: quote_units rest'
            else unicode_escape c ++ quote_units rest
        | [] => unicode_escape c
        end
      else if is_low_surrogate c then unicode_escape c ++ quote_units rest
      else escape_unit c ++ quote_units rest
  end.

Definition QuoteJSONString (s : jsstring) : jsstring :=
  [DQUOTE] ++ quote_units s ++ [DQUOTE].

Definition gap : jsstring := lit "  ".

Fixpoint serialize (h : Host) (indent : jsstring) (v : JsValue) : jsstring :=
  match v with
  | JNull => lit "null"
  | JBool true => lit "true"
  | JBool false => lit "false"
  | JInt n => Number_toString n
  | JNum lexeme => Number_render h lexeme
  | JString s => QuoteJSONString s
  | JArray [] => lit "[]"
  | JArray elements =>
      lit "[" ++ [NEWLINE] ++ (indent ++ gap)
      ++ join (lit "," ++ [NEWLINE] ++ (indent ++ gap))
              (map (serialize h (indent ++ gap)) elements)
      ++ [NEWLINE] ++ indent ++ lit "]"
  | JObject [] => lit "{}"
  | JObject entries =>
      lit "{" ++ [NEWLINE] ++ (indent ++ gap)
      ++ join (lit "," ++ [NEWLINE] ++ (indent ++ gap))
              (map (fun kv => QuoteJSONString (fst kv) ++ lit ": "
                              ++ serialize h (indent ++ gap) (snd kv)) entries)
      ++ [NEWLINE] ++ indent ++ lit "}"
  end.

Definition JSON_stringify (h : Host) (v : JsValue) : jsstring := serialize h [] v.

(** ** [JSON.parse(text)] *)

Inductive Token :=
| TLBrace | TRBrace | TLBracket | TRBracket | TColon | TComma
| TString (s : jsstring)
| TNumber (lexeme : jsstring)
| TTrue | TFalse | TNull.

(** Where the scanner is: between tokens, inside a string (after a
    backslash, inside the four digits of a [\u] escape), inside a number or
    inside one of the names [true], [false], [null].  Collected characters
    are held in reverse. *)
Inductive LexMode :=
| LStart
| LStr (acc : jsstring)
| LEsc (acc : jsstring)
| LHex (acc : jsstring) (digits : list N)
| LNumber (acc : jsstring)
| LWord (acc : jsstring).

Definition is_ws (c : code_unit) : bool :=
  N.eqb c 32 || N.eqb c 9 || N.eqb c 10 || N.eqb c 13.

Definition is_number_unit (c : code_unit) : bool :=
  is_digit c || N.eqb c 45 || N.eqb c 43 || N.eqb c 46 || N.eqb c 101 || N.eqb c 69.

Definition is_lower (c : code_unit) : bool := ((97 <=? c) && (c <=? 122))%N.

Definition hex_value (c : code_unit) : option N :=
  if is_digit c then Some (c - 48)%N
  else if ((97 <=? c) && (c <=? 102))%N then Some (c - 87)%N
  else if ((65 <=? c) && (c <=? 70))%N then Some (c - 55)%N
  else None.

Definition is_nil (s : jsstring) : bool :=
  match s with [] => true | _ => false end.

(** exponent part, or nothing *)
Definition valid_exp (s : jsstring) : bool :=
  match s with
  | [] => true
  | c :: r =>
      if N.eqb c 101 || N.eqb c 69 then
        let r' := match r with
                  | d :: r'' => if N.eqb d 43 || N.eqb d 45 then r'' else r
                  | [] => r
                  end in
        match r' with
        | d :: _ => is_digit d && is_nil (drop_while is_digit r')
        | [] => false
        end
      else false
  end.

(** fraction part, or nothing, then the exponent part *)
Definition valid_frac (s : jsstring) : bool :=
  match s with
  | c :: r =>
      if N.eqb c 46 then
        match r with
        | d :: _ => is_digit d && valid_exp (drop_while is_digit r)
        | [] => false
        end
      else valid_exp s
  | [] => true
  end.

Definition strip_minus (s : jsstring) : jsstring :=
  match s with
  | c :: r => if N.eqb c 45 then r else s
  | [] => s
  end.

(** The JSON number grammar: an optional minus, then zero or a numeral
    without leading zero, then optional fraction and exponent. *)
Definition valid_number (s : jsstring) : bool :=
  match strip_minus s with
  | [] => false
  | c :: r =>
      if N.eqb c 48 then valid_frac r
      else is_digit c && valid_frac (drop_while is_digit r)
  end.

Definition MAX_SAFE_INTEGER : Z := 9007199254740991.

(** The value of a valid number lexeme. *)
Definition number_value (lexeme : jsstring) : JsValue :=
  let digits := strip_minus lexeme in
  let n := Z.of_N (digits_value digits) in
  if forallb is_digit digits && (n <=? MAX_SAFE_INTEGER)
  then JInt (if starts_with [45%N] lexeme then - n else n)
  else JNum lexeme.

Definition finish_word (acc : jsstring) : option Token :=
  let w := rev acc in
  if jsstring_eqb w (lit "true") then Some TTrue
  else if jsstring_eqb w (lit "false") then Some TFalse
  else if jsstring_eqb w (lit "null") then Some TNull
  else None.

Definition finish_number (acc : jsstring) : option Token :=
  if valid_number (rev acc) then Some (TNumber (rev acc)) else None.

(** One character read between tokens; [out] is the reversed token list. *)
Definition lex_start (out : list Token) (c : code_unit)
  : option (LexMode * list Token) :=
  if is_ws c then Some (LStart, out)
  else if N.eqb c 123 then Some (LStart, TLBrace :: out)
  else if N.eqb c 125 then Some (LStart, TRBrace :: out)
  else if N.eqb c 91 then Some (LStart, TLBracket :: out)
  else if N.eqb c 93 then Some (LStart, TRBracket :: out)
  else if N.eqb c 58 then Some (LStart, TColon :: out)
  else if N.eqb c 44 then Some (LStart, TComma :: out)
  else if N.eqb c DQUOTE then Some (LStr [], out)
  else if is_digit c || N.eqb c 45 then Some (LNumber [c], out)
  else if is_lower c then Some (LWord [c], out)
  else None.

Definition lex_step (st : LexMode * list Token) (c : code_unit)
  : option (LexMode * list Token) :=
  let (mode, out) := st in
  match mode with
  | LStart => lex_start out c
  | LStr acc =>
      if N.eqb c DQUOTE then Some (LStart, TString (rev acc) :: out)
      else if N.eqb c BACKSLASH then Some (LEsc acc, out)
      else if (c <? 32)%N then None
      else Some (LStr (c :: acc), out)
  | LEsc acc =>
      if N.eqb c DQUOTE || N.eqb c BACKSLASH || N.eqb c 47 then Some (LStr (c :: acc), out)
      else if N.eqb c 98 then Some (LStr (8%N :: acc), out)
      else if N.eqb c 102 then Some (LStr (12%N :: acc), out)
      else if N.eqb c 110 then Some (LStr (10%N :: acc), out)
      else if N.eqb c 114 then Some (LStr (13%N :: acc), out)
      else if N.eqb c 116 then Some (LStr (9%N :: acc), out)
      else if N.eqb c 117 then Some (LHex acc [], out)
      else None
  | LHex acc digits =>
      match hex_value c with
      | None => None
      | Some d =>
          match digits with
          | [d1; d2; d3] =>
              Some (LStr ((((d1 * 16 + d2) * 16 + d3) * 16 + d)%N :: acc), out)
          | _ => Some (LHex acc (digits ++ [d]), out)
          end
      end
  | LNumber acc =>
      if is_number_unit c then Some (LNumber (c :: acc), out)
      else match finish_number acc with
           | Some t => lex_start (t :: out) c
           | None => None
           end
  | LWord acc =>
      if is_lower c then Some (LWord (c :: acc), out)
      else match finish_word acc with
           | Some t => lex_start (t :: out) c
           | None => None
           end
  end.

Fixpoint lex_run (st : LexMode * list Token) (s : jsstring)
  : option (LexMode * list Token) :=
  match s with
  | [] => Some st
  | c :: r => match lex_step st c with
              | Some st' => lex_run st' r
              | None => None
              end
  end.

(** At the end of the text a number or a name may still be open. *)
Definition lex_finish (st : LexMode * list Token) : option (list Token) :=
  let (mode, out) := st in
  match mode with
  | LStart => Some (rev out)
  | LNumber acc => option_map (fun t => rev (t :: out)) (finish_number acc)
  | LWord acc => option_map (fun t => rev (t :: out)) (finish_word acc)
  | _ => None
  end.

Definition lex (s : jsstring) : option (list Token) :=
  match lex_run (LStart, []) s with
  | Some st => lex_finish st
  | None => None
  end.

(** A container under construction that waits for the value of its next
    element, or of the member [key]. *)
Inductive Frame :=
| FArray (elements : list JsValue)
| FObject (members : list (jsstring * JsValue)) (key : jsstring).

Inductive ParseState :=
| SValue (ctx : list Frame)
| SArrayFirst (ctx : list Frame)
| SArrayAfter (elements : list JsValue) (ctx : list Frame)
| SObjectFirst (ctx : list Frame)
| SObjectKey (members : list (jsstring * JsValue)) (ctx : list Frame)
| SColon (members : list (jsstring * JsValue)) (key : jsstring) (ctx : list Frame)
| SObjectAfter (members : list (jsstring * JsValue)) (ctx : list Frame)
| SDone (v : JsValue).

(** A finished value goes to the innermost open container. *)
Definition deliver (v : JsValue) (ctx : list Frame) : ParseState :=
  match ctx with
  | [] => SDone v
  | FArray es :: ctx' => SArrayAfter (v :: es) ctx'
  | FObject ms k :: ctx' => SObjectAfter ((k, v) :: ms) ctx'
  end.

Definition parse_value (ctx : list Frame) (t : Token) : option ParseState :=
  match t with
  | TLBracket => Some (SArrayFirst ctx)
  | TLBrace => Some (SObjectFirst ctx)
  | TString s => Some (deliver (JString s) ctx)
  | TNumber l => Some (deliver (number_value l) ctx)
  | TTrue => Some (deliver (JBool true) ctx)
  | TFalse => Some (deliver (JBool false) ctx)
  | TNull => Some (deliver JNull ctx)
  | _ => None
  end.

Definition parse_step (st : ParseState) (t : Token) : option ParseState :=
  match st with
  | SValue ctx => parse_value ctx t
  | SArrayFirst ctx =>
      match t with
      | TRBracket => Some (deliver (JArray []) ctx)
      | _ => parse_value (FArray [] :: ctx) t
      end
  | SArrayAfter es ctx =>
      match t with
      | TComma => Some (SValue (FArray es :: ctx))
      | TRBracket => Some (deliver (JArray (rev es)) ctx)
      | _ => None
      end
  | SObjectFirst ctx =>
      match t with
      | TRBrace => Some (deliver (JObject []) ctx)
      | TString k => Some (SColon [] k ctx)
      | _ => None
      end
  | SObjectKey ms ctx =>
      match t with
      | TString k => Some (SColon ms k ctx)
      | _ => None
      end
  | SColon ms k ctx =>
      match t with
      | TColon => Some (SValue (FObject ms k :: ctx))
      | _ => None
      end
  | SObjectAfter ms ctx =>
      match t with
      | TComma => Some (SObjectKey ms ctx)
      | TRBrace => Some (deliver (JObject (rev ms)) ctx)
      | _ => None
      end
  | SDone _ => None
  end.

Fixpoint parse_run (st : ParseState) (ts : list Token) : option ParseState :=
  match ts with
  | [] => Some st
  | t :: r => match parse_step st t with
              | Some st' => parse_run st' r
              | None => None
              end
  end.

(** The members of every object, read in text order, become its own
    properties one after the other. *)
Fixpoint create_properties (v : JsValue) : JsValue :=
  match v with
  | JArray elements => JArray (map create_properties elements)
  | JObject members =>
      JObject (Object_fromEntries
                 (map (fun kv => (fst kv, create_properties (snd kv))) members))
  | _ => v
  end.

(** The value as the text spells it: the members of an object in text
    order, repeated keys included.  [None] stands for the [SyntaxError] that
    [JSON.parse] throws. *)
Definition parse_syntax (text : jsstring) : option JsValue :=
  match lex text with
  | None => None
  | Some ts =>
      match parse_run (SValue []) ts with
      | Some (SDone v) => Some v
      | _ => None
      end
  end.

(** [JSON.parse(text)] *)
Definition JSON_parse (text : jsstring) : option JsValue :=
  option_map create_properties (parse_syntax text).

(** ** The result of a tool call *)

(** [{ content: [{ type: "text", text }], isError }]; the handler returns
    nothing else. *)
Record ToolResult := {
  text : jsstring;
  isError : bool
}.

(** [x || null] for a string or [undefined] *)
Definition or_null (x : option jsstring) : JsValue :=
  match x with
  | Some (c :: s) => JString (c :: s)
  | _ => JNull
  end.

(** ** Server version 1.2.0 (the first [handleCurlRequest] of [index.js]) *)

Module V120.

(** The statements under [if (jsonString.length > 1000000)].  [null] is not
    an array and has type ['object'], and [Object.entries(null)] throws. *)
Definition truncate_structure (parsedResponse : JsValue) : Exec JsValue :=
  match parsedResponse with
  | JArray elements => ret (JArray (firstn 100 elements))
  | JObject entries => ret (JObject (Object_fromEntries (firstn 100 entries)))
  | JNull => throw (Error (lit "Cannot convert undefined or null to object"))
  | _ => ret parsedResponse
  end.

(** From the byte-truncated [response] to the text of the result. *)
Definition final_text (h : Host) (response : jsstring) : Exec jsstring :=
  match JSON_parse response with
  | Some parsedResponse =>
      let jsonString := JSON_stringify h parsedResponse in
      parsedResponse' <- (if strlen jsonString >? 1000000
                          then truncate_structure parsedResponse
                          else ret parsedResponse) ;;
      ret (JSON_stringify h parsedResponse')
  | None => ret response
  end.

Definition handleCurlRequest (h : Host) (a : Args) : Exec ToolResult :=
  try_catch
    (out <- run_curl h a ;;
     let max_response_size := default 800000 (max_response_size a) in
     let '(response, truncated, originalSize) :=
       byte_truncate (fst out) max_response_size in
     t <- final_text h response ;;
     ret {| text := t; isError := false |})
    (fun error =>
       ret {| text := JSON_stringify h
                        (JObject [(lit "error", JString (message error));
                                  (lit "stderr", or_null (error_stderr error))]);
              isError := true |}).

End V120.

(** ** Server version 1.1.0 (the second [handleCurlRequest] of [index.js]) *)

Module V110.

(** The [result] object, with the truncation fields when [truncated]. *)
Definition result_object (a : Args) (stdout stderr : jsstring)
  : list (jsstring * JsValue) :=
  let max_response_size := default 800000 (max_response_size a) in
  let '(response, truncated, originalSize) := byte_truncate stdout max_response_size in
  [(lit "success", JBool true);
   (lit "command", JString (command a));
   (lit "response", JString response);
   (lit "error", or_null (Some stderr))]
  ++ (if truncated then
        [(lit "truncated", JBool true);
         (lit "original_size", JInt originalSize);
         (lit "truncated_size", JInt max_response_size);
         (lit "truncation_note",
          JString (lit "Response truncated from " ++ Number_toString originalSize
                   ++ lit " bytes to " ++ Number_toString max_response_size
                   ++ lit " bytes"));
         (lit "warning",
          JString (lit "Large response was truncated. Use max_response_size parameter to control truncation."))]
      else []).

(** The object returned instead when [resultJson] is longer than 1000000. *)
Definition oversized_object (a : Args) (stdout : jsstring)
  : list (jsstring * JsValue) :=
  let max_response_size := default 800000 (max_response_size a) in
  let '(response, truncated, originalSize) := byte_truncate stdout max_response_size in
  [(lit "success", JBool true);
   (lit "truncated", JBool true);
   (lit "original_size", JInt originalSize);
   (lit "error", JString (lit "Response too large even after truncation"));
   (lit "sample", JString (substring response 0 50000));
   (lit "note", JString (lit "Only showing first 50KB of response due to size constraints"))].

Definition handleCurlRequest (h : Host) (a : Args) : Exec ToolResult :=
  try_catch
    (out <- run_curl h a ;;
     let resultJson := JSON_stringify h (JObject (result_object a (fst out) (snd out))) in
     if strlen resultJson >? 1000000
     then ret {| text := JSON_stringify h (JObject (oversized_object a (fst out)));
                 isError := false |}
     else ret {| text := resultJson; isError := false |})
    (fun error =>
       ret {| text := JSON_stringify h
                        (JObject [(lit "success", JBool false);
                                  (lit "error", JString (message error));
                                  (lit "stderr", or_null (error_stderr error))]);
              isError := true |}).

End V110.

(** Running a handler from an empty log: its result and the command lines
    it handed to [exec]. *)
Definition call {A} (m : Exec A) : (JsError + A) * list jsstring := m [].

(** ** How the shell reads a command line *)

(** [exec] hands the command line to [/bin/sh -c].  The reading below covers
    blanks, the separators [;], [&], [|] and newline, single quotes, double
    quotes and the backslash; a command line that needs any other shell
    feature (expansions, redirections, patterns, comments) is
    [ShUnsupported]. *)
Inductive ShMode := ShPlain | ShSingle | ShDouble.

Inductive ShResult :=
| ShCommands (cmds : list (list jsstring))
| ShUnterminated
| ShUnsupported.

Record ShState := {
  sh_done : list (list jsstring);
  sh_words : list jsstring;
  sh_word : option jsstring;
  sh_mode : ShMode;
  sh_escape : bool
}.

Definition sh_init : ShState :=
  {| sh_done := []; sh_words := []; sh_word := None;
     sh_mode := ShPlain; sh_escape := false |}.

(** Characters that stand for themselves outside quotes. *)
Definition sh_plain_unit (c : code_unit) : bool :=
  is_alpha c || is_digit c
  || existsb (N.eqb c) [45; 95; 46; 47; 58; 44; 43; 64; 37]%N.

Definition sh_push (c : code_unit) (st : ShState) : ShState :=
  {| sh_done := sh_done st; sh_words := sh_words st;
     sh_word := Some (c :: default [] (sh_word st));
     sh_mode := sh_mode st; sh_escape := false |}.

Definition sh_set_mode (m : ShMode) (st : ShState) : ShState :=
  {| sh_done := sh_done st; sh_words := sh_words st;
     sh_word := Some (default [] (sh_word st));
     sh_mode := m; sh_escape := false |}.

Definition sh_set_escape (st : ShState) : ShState :=
  {| sh_done := sh_done st; sh_words := sh_words st; sh_word := sh_word st;
     sh_mode := sh_mode st; sh_escape := true |}.

Definition sh_end_word (st : ShState) : ShState :=
  {| sh_done := sh_done st;
     sh_words := match sh_word st with
                 | Some w => rev w :: sh_words st
                 | None => sh_words st
                 end;
     sh_word := None; sh_mode := sh_mode st; sh_escape := false |}.

Definition sh_end_command (st : ShState) : ShState :=
  let st' := sh_end_word st in
  {| sh_done := match sh_words st' with
                | [] => sh_done st'
                | ws => rev ws :: sh_done st'
                end;
     sh_words := []; sh_word := None; sh_mode := sh_mode st'; sh_escape := false |}.

Definition sh_step (st : ShState) (c : code_unit) : option ShState :=
  match sh_mode st with
  | ShPlain =>
      if sh_escape st then
        if N.eqb c NEWLINE then None else Some (sh_push c st)
      else if N.eqb c 32 || N.eqb c 9 then Some (sh_end_word st)
      else if N.eqb c 59 || N.eqb c 38 || N.eqb c 124 || N.eqb c NEWLINE
           then Some (sh_end_command st)
      else if N.eqb c SQUOTE then Some (sh_set_mode ShSingle st)
      else if N.eqb c DQUOTE then Some (sh_set_mode ShDouble st)
      else if N.eqb c BACKSLASH then Some (sh_set_escape st)
      else if sh_plain_unit c then Some (sh_push c st)
      else None
  | ShSingle =>
      if N.eqb c SQUOTE then Some (sh_set_mode ShPlain st)
      else Some (sh_push c st)
  | ShDouble =>
      if sh_escape st then
        if N.eqb c 36 || N.eqb c 96 || N.eqb c DQUOTE || N.eqb c BACKSLASH
        then Some (sh_push c st)
        else if N.eqb c NEWLINE then None
        else Some (sh_push c (sh_push BACKSLASH st))
      else if N.eqb c DQUOTE then Some (sh_set_mode ShPlain st)
      else if N.eqb c BACKSLASH then Some (sh_set_escape st)
      else if N.eqb c 36 || N.eqb c 96 then None
      else Some (sh_push c st)
  end.

Fixpoint sh_run (st : ShState) (s : jsstring) : ShResult :=
  match s with
  | [] =>
      match sh_mode st with
      | ShPlain => if sh_escape st then ShUnsupported
                   else ShCommands (rev (sh_done (sh_end_command st)))
      | _ => ShUnterminated
      end
  | c :: r =>
      match sh_step st c with
      | Some st' => sh_run st' r
      | None => ShUnsupported
      end
  end.

Definition sh_read (command_line : jsstring) : ShResult := sh_run sh_init command_line.

(** ** Fixtures *)

(** The same arguments with [data] left out. *)
Definition without_data (a : Args) : Args :=
  {| url := url a; method := method a; headers := headers a; data := None;
     timeout := timeout a; follow_redirects := follow_redirects a;
     include_headers := include_headers a; user_agent := user_agent a;
     max_response_size := max_response_size a |}.

(** A request with every optional argument left out. *)
Definition request (u : jsstring) : Args :=
  {| url := u; method := None; headers := None; data := None; timeout := None;
     follow_redirects := None; include_headers := None; user_agent := None;
     max_response_size := None |}.

Definition with_method (m : jsstring) (a : Args) : Args :=
  {| url := url a; method := Some m; headers := headers a; data := data a;
     timeout := timeout a; follow_redirects := follow_redirects a;
     include_headers := include_headers a; user_agent := user_agent a;
     max_response_size := max_response_size a |}.

Definition with_data (d : jsstring) (a : Args) : Args :=
  {| url := url a; method := method a; headers := headers a; data := Some d;
     timeout := timeout a; follow_redirects := follow_redirects a;
     include_headers := include_headers a; user_agent := user_agent a;
     max_response_size := max_response_size a |}.

Definition with_user_agent (ua : jsstring) (a : Args) : Args :=
  {| url := url a; method := method a; headers := headers a; data := data a;
     timeout := timeout a; follow_redirects := follow_redirects a;
     include_headers := include_headers a; user_agent := Some ua;
     max_response_size := max_response_size a |}.

Definition with_max_response_size (m : Z) (a : Args) : Args :=
  {| url := url a; method := method a; headers := headers a; data := data a;
     timeout := timeout a; follow_redirects := follow_redirects a;
     include_headers := include_headers a; user_agent := user_agent a;
     max_response_size := Some m |}.

(** A host whose URL parser asks for a scheme and nothing more, that prints
    number lexemes as they are, and where every command exits with status 0
    after printing [out]. *)
Definition printing_host (out : jsstring) : Host :=
  {| URL_parses := has_scheme;
     URL_parses_scheme := fun _ H => H;
     Number_render := fun lexeme => lexeme;
     spawn := fun _ => {| exit_code := 0; proc_stdout := out; proc_stderr := [] |} |}.


Definition body_methods : list jsstring := [lit "POST"; lit "PUT"; lit "PATCH"].

(** The text of an error result of version 1.2.0. *)
Definition error_text (h : Host) (msg : jsstring) (stderr : option jsstring) : jsstring :=
  JSON_stringify h (JObject [(lit "error", JString msg); (lit "stderr", or_null stderr)]).

(** The fields that version 1.1.0 adds to [result] when [truncated]. *)
Definition truncation_fields (originalSize max_response_size : Z)
  : list (jsstring * JsValue) :=
  [(lit "truncated", JBool true);
   (lit "original_size", JInt originalSize);
   (lit "truncated_size", JInt max_response_size);
   (lit "truncation_note",
    JString (lit "Response truncated from " ++ Number_toString originalSize
             ++ lit " bytes to " ++ Number_toString max_response_size ++ lit " bytes"));
   (lit "warning",
    JString (lit "Large response was truncated. Use max_response_size parameter to control truncation."))].

Definition post (d : jsstring) : Args :=
  with_data d (with_method (lit "POST") (request (lit "http://h/"))).

Definition curl_words : list jsstring :=
  [lit "curl"; lit "--max-time"; lit "30"; lit "--user-agent";
   lit "curl-mcp-server/1.1.0"; lit "--silent"; lit "--show-error"; lit "--location"].


(** Responses that print much longer than they are: [{"data":[0,0,...,0]}]
    with [n + 1] zeros, and the same object followed by the hundred members
    [k1] to [k100] and then by a member whose key is the array index [0]. *)
Definition more_zeros (n : nat) : jsstring := concat (repeat (lit ",0") n).

Definition zero_array (n : nat) : JsValue := JArray (repeat (JInt 0) (S n)).

Definition framed (n : nat) (tail : jsstring) : jsstring :=
  lit "{" ++ [DQUOTE] ++ lit "data" ++ [DQUOTE] ++ lit ":[0" ++ more_zeros n ++ tail.

Definition data_response (n : nat) : jsstring := framed n (lit "]}").

Definition plain_key (i : nat) : jsstring := lit "k" ++ Number_toString (Z.of_nat i).

Definition plain_members (count : nat) : jsstring :=
  flat_map (fun i => lit "," ++ [DQUOTE] ++ plain_key i ++ [DQUOTE] ++ lit ":0")
           (seq 1 count).

Definition late_index_response (n : nat) : jsstring :=
  framed n (lit "]" ++ plain_members 100
            ++ lit "," ++ [DQUOTE] ++ lit "0" ++ [DQUOTE] ++ lit ":0}").

Definition plain_entries (count : nat) : list (jsstring * JsValue) :=
  map (fun i => (plain_key i, JInt 0)) (seq 1 count).

(** The members of [late_index_response n] in the order of the text, and
    its entries in own-property order. *)
Definition late_index_members (n : nat) : list (jsstring * JsValue) :=
  (lit "data", zero_array n) :: plain_entries 100 ++ [(lit "0", JInt 0)].

Definition late_index_entries (n : nat) : list (jsstring * JsValue) :=
  (lit "0", JInt 0) :: (lit "data", zero_array n) :: plain_entries 100.

Definition zero_comma_tokens (n : nat) : list Token :=
  concat (repeat [TNumber (lit "0"); TComma] n).

From Stdlib Require DecimalFacts.

(** ** [handleCurlDownload] *)

(** The [maxBuffer] of [exec] when the call passes no options. *)
Definition default_maxBuffer : Z := 1024 * 1024.

(** [{ error: error.message }] *)
Definition download_error_text (h : Host) (msg : jsstring) : jsstring :=
  JSON_stringify h (JObject [(lit "error", JString msg)]).

Module Download.

(** The arguments of [curl_download]. *)
Record Args := {
  url : jsstring;
  output_path : jsstring;
  timeout : option Z;
  follow_redirects : option bool
}.

Definition curlCmd (a : Args) : list jsstring :=
  let timeout := default 300 (timeout a) in
  let follow_redirects := default true (follow_redirects a) in
  [lit "curl"]
  ++ [lit "--max-time " ++ Number_toString timeout]
  ++ [lit "--silent"]
  ++ [lit "--show-error"]
  ++ [lit "--progress-bar"]
  ++ (if follow_redirects then [lit "--location"] else [])
  ++ [lit "--output " ++ [DQUOTE] ++ output_path a ++ [DQUOTE]]
  ++ [[DQUOTE] ++ url a ++ [DQUOTE]].

Definition command (a : Args) : jsstring := join (lit " ") (curlCmd a).

(** URL validation, command assembly, execution. *)
Definition run_curl (h : Host) (a : Args) : Exec (jsstring * jsstring) :=
  _ <- (if URL_parses h (url a) then ret tt
        else throw (Error (lit "Invalid URL: " ++ url a))) ;;
  execAsync h (command a) default_maxBuffer.

(** Server version 1.2.0 *)
Module V120.

Definition handleCurlDownload (h : Host) (a : Args) : Exec ToolResult :=
  try_catch
    (_ <- run_curl h a ;;
     ret {| text := JSON_stringify h
                      (JObject [(lit "success", JBool true);
                                (lit "output_path", JString (output_path a));
                                (lit "message", JString (lit "File downloaded successfully"))]);
            isError := false |})
    (fun error =>
       ret {| text := download_error_text h (message error); isError := true |}).

End V120.

(** Server version 1.1.0 *)
Module V110.

Definition handleCurlDownload (h : Host) (a : Args) : Exec ToolResult :=
  try_catch
    (out <- run_curl h a ;;
     ret {| text := JSON_stringify h
                      (JObject [(lit "success", JBool true);
                                (lit "command", JString (command a));
                                (lit "output_path", JString (output_path a));
                                (lit "message", JString (lit "File downloaded successfully"));
                                (lit "stderr", or_null (Some (snd out)))]);
            isError := false |})
    (fun error =>
       ret {| text := JSON_stringify h
                        (JObject [(lit "success", JBool false);
                                  (lit "error", JString (message error));
                                  (lit "stderr", or_null (error_stderr error))]);
              isError := true |}).

End V110.

End Download.

(** ** The handler of tool calls *)

(** The [arguments] object of a call, read by the destructuring pattern of
    whichever handler the name selects.  [output_path] is absent from a
    [curl_request] call and required by [curl_download]. *)
Record ToolArguments := {
  arg_url : jsstring;
  arg_method : option jsstring;
  arg_headers : option (list (jsstring * jsstring));
  arg_data : option jsstring;
  arg_timeout : option Z;
  arg_follow_redirects : option bool;
  arg_include_headers : option bool;
  arg_user_agent : option jsstring;
  arg_max_response_size : option Z;
  arg_output_path : jsstring
}.

Definition request_arguments (x : ToolArguments) : Args :=
  {| url := arg_url x; method := arg_method x; headers := arg_headers x;
     data := arg_data x; timeout := arg_timeout x;
     follow_redirects := arg_follow_redirects x;
     include_headers := arg_include_headers x; user_agent := arg_user_agent x;
     max_response_size := arg_max_response_size x |}.

Definition download_arguments (x : ToolArguments) : Download.Args :=
  {| Download.url := arg_url x; Download.output_path := arg_output_path x;
     Download.timeout := arg_timeout x;
     Download.follow_redirects := arg_follow_redirects x |}.

(** The handler registered for [CallToolRequestSchema]: the [switch] on the
    tool name.  Its [default] branch throws outside any [try]. *)
Definition call_tool
  (handleCurlRequest : Host -> Args -> Exec ToolResult)
  (handleCurlDownload : Host -> Download.Args -> Exec ToolResult)
  (h : Host) (name : jsstring) (args : ToolArguments) : Exec ToolResult :=
  if jsstring_eqb name (lit "curl_request")
  then handleCurlRequest h (request_arguments args)
  else if jsstring_eqb name (lit "curl_download")
  then handleCurlDownload h (download_arguments args)
  else throw (Error (lit "Unknown tool: " ++ name)).

Definition call_tool_v120 := call_tool V120.handleCurlRequest Download.V120.handleCurlDownload.

Definition call_tool_v110 := call_tool V110.handleCurlRequest Download.V110.handleCurlDownload.

(** ** The tool listing *)

(** One entry of [properties] in an [inputSchema]. *)
Record PropertySchema := {
  property : jsstring;
  type_name : jsstring;
  enum : option (list jsstring);
  schema_default : option JsValue;
  description : jsstring
}.

Record ToolSchema := {
  tool_name : jsstring;
  tool_description : jsstring;
  properties : list PropertySchema;
  required : list jsstring
}.

(** The answer to [ListToolsRequestSchema], the same in both revisions (the
    [additionalProperties] of [headers] is left out). *)
Definition curl_request_schema : ToolSchema :=
  {| tool_name := lit "curl_request";
     tool_description :=
       lit "Execute a curl command to make HTTP requests to specified URLs with response size limiting";
     properties :=
       [{| property := lit "url"; type_name := lit "string"; enum := None;
           schema_default := None;
           description := lit "The URL to make the request to" |};
        {| property := lit "method"; type_name := lit "string";
           enum := Some [lit "GET"; lit "POST"; lit "PUT"; lit "DELETE"; lit "PATCH";
                         lit "HEAD"; lit "OPTIONS"];
           schema_default := Some (JString (lit "GET"));
           description := lit "HTTP method to use" |};
        {| property := lit "headers"; type_name := lit "object"; enum := None;
           schema_default := None;
           description := lit "Headers to include in the request" |};
        {| property := lit "data"; type_name := lit "string"; enum := None;
           schema_default := None;
           description := lit "Data to send with the request (for POST, PUT, PATCH)" |};
        {| property := lit "timeout"; type_name := lit "number"; enum := None;
           schema_default := Some (JInt 30);
           description := lit "Request timeout in seconds" |};
        {| property := lit "follow_redirects"; type_name := lit "boolean"; enum := None;
           schema_default := Some (JBool true);
           description := lit "Whether to follow redirects" |};
        {| property := lit "include_headers"; type_name := lit "boolean"; enum := None;
           schema_default := Some (JBool false);
           description := lit "Include response headers in output" |};
        {| property := lit "user_agent"; type_name := lit "string"; enum := None;
           schema_default := Some (JString (lit "curl-mcp-server/1.1.0"));
           description := lit "User agent string to use" |};
        {| property := lit "max_response_size"; type_name := lit "number"; enum := None;
           schema_default := Some (JInt 800000);
           description :=
             lit "Maximum response size in bytes (default 800KB to stay well under 1MB limit)" |}];
     required := [lit "url"] |}.

Definition curl_download_schema : ToolSchema :=
  {| tool_name := lit "curl_download";
     tool_description := lit "Download a file from a URL using curl";
     properties :=
       [{| property := lit "url"; type_name := lit "string"; enum := None;
           schema_default := None;
           description := lit "The URL to download from" |};
        {| property := lit "output_path"; type_name := lit "string"; enum := None;
           schema_default := None;
           description := lit "Local path where to save the downloaded file" |};
        {| property := lit "timeout"; type_name := lit "number"; enum := None;
           schema_default := Some (JInt 300);
           description := lit "Download timeout in seconds" |};
        {| property := lit "follow_redirects"; type_name := lit "boolean"; enum := None;
           schema_default := Some (JBool true);
           description := lit "Whether to follow redirects" |}];
     required := [lit "url"; lit "output_path"] |}.

Definition tools : list ToolSchema := [curl_request_schema; curl_download_schema].

(** The default that a schema declares for a property. *)
Definition declared_default (s : ToolSchema) (p : jsstring) : option JsValue :=
  match find (fun q => jsstring_eqb (property q) p) (properties s) with
  | Some q => schema_default q
  | None => None
  end.

Definition or_string (o : option jsstring) (d : option JsValue) : option jsstring :=
  match o, d with
  | None, Some (JString s) => Some s
  | _, _ => o
  end.

Definition or_number (o : option Z) (d : option JsValue) : option Z :=
  match o, d with
  | None, Some (JInt n) => Some n
  | _, _ => o
  end.

Definition or_boolean (o : option bool) (d : option JsValue) : option bool :=
  match o, d with
  | None, Some (JBool b) => Some b
  | _, _ => o
  end.

(** The arguments of a call with every absent argument replaced by the
    default that the schema declares for it, if it declares one. *)
Definition with_declared_defaults (s : ToolSchema) (x : ToolArguments) : ToolArguments :=
  {| arg_url := arg_url x;
     arg_method := or_string (arg_method x) (declared_default s (lit "method"));
     arg_headers := arg_headers x;
     arg_data := or_string (arg_data x) (declared_default s (lit "data"));
     arg_timeout := or_number (arg_timeout x) (declared_default s (lit "timeout"));
     arg_follow_redirects :=
       or_boolean (arg_follow_redirects x) (declared_default s (lit "follow_redirects"));
     arg_include_headers :=
       or_boolean (arg_include_headers x) (declared_default s (lit "include_headers"));
     arg_user_agent := or_string (arg_user_agent x) (declared_default s (lit "user_agent"));
     arg_max_response_size :=
       or_number (arg_max_response_size x) (declared_default s (lit "max_response_size"));
     arg_output_path := arg_output_path x |}.

(** ** The argument vector that a command line is meant to stand for *)

Definition guard_data (a : Args) : bool :=
  truthy (data a) && includes body_methods (default (lit "GET") (method a)).

Definition argv (a : Args) : list jsstring :=
  [lit "curl"; lit "--max-time"; Number_toString (default 30 (timeout a));
   lit "--user-agent"; default (lit "curl-mcp-server/1.1.0") (user_agent a);
   lit "--silent"; lit "--show-error"]
  ++ (if default true (follow_redirects a) then [lit "--location"] else [])
  ++ (if default false (include_headers a) then [lit "--include"] else [])
  ++ [lit "--request"; default (lit "GET") (method a)]
  ++ flat_map (fun kv => [lit "--header"; fst kv ++ lit ": " ++ snd kv])
              (default [] (headers a))
  ++ (if guard_data a then [lit "--data"; default [] (data a)] else [])
  ++ [url a].

Definition download_argv (a : Download.Args) : list jsstring :=
  [lit "curl"; lit "--max-time"; Number_toString (default 300 (Download.timeout a));
   lit "--silent"; lit "--show-error"; lit "--progress-bar"]
  ++ (if default true (Download.follow_redirects a) then [lit "--location"] else [])
  ++ [lit "--output"; Download.output_path a; Download.url a].

(** A value that may stand between double quotes as it is, between single
    quotes as it is, and bare. *)
Definition dq_safe (s : jsstring) : bool :=
  forallb (fun c => negb (N.eqb c DQUOTE || N.eqb c BACKSLASH || N.eqb c 36 || N.eqb c 96)) s.

Definition sq_safe (s : jsstring) : bool := forallb (fun c => negb (N.eqb c SQUOTE)) s.

Definition bare_word (s : jsstring) : bool := negb (is_nil s) && forallb sh_plain_unit s.

(** The child ended well for a caller that allows [cap] bytes per stream. *)
Definition exec_ok (p : ProcessOutput) (cap : Z) : bool :=
  (utf8_length (proc_stdout p) <=? cap) && (utf8_length (proc_stderr p) <=? cap)
  && (exit_code p =? 0).

(** A host like [printing_host] where the command also writes [err] and
    exits with [status]. *)
Definition failing_host (out err : jsstring) (status : Z) : Host :=
  {| URL_parses := has_scheme;
     URL_parses_scheme := fun _ H => H;
     Number_render := fun lexeme => lexeme;
     spawn := fun _ => {| exit_code := status; proc_stdout := out; proc_stderr := err |} |}.

(** ** Parsed values that the structural stage leaves alone *)

(** [Array.isArray(v) || (typeof v === 'object' && v !== null)] *)
Definition is_container (v : JsValue) : bool :=
  match v with
  | JArray _ | JObject _ => true
  | _ => false
  end.

(** The response that is one JSON string of [n] letters [a]. *)
Definition letters_response (n : nat) : jsstring :=
  [DQUOTE] ++ repeat 97%N n ++ [DQUOTE].

(** A download with only [url] and [output_path] given. *)
Definition download (u path : jsstring) : Download.Args :=
  {| Download.url := u; Download.output_path := path;
     Download.timeout := None; Download.follow_redirects := None |}.

(** ** The command line as the shell words it is written to be *)

(** One word of a command line, by the way the source writes it: bare,
    between double quotes, or between single quotes. *)
Inductive Piece :=
| Bare (s : jsstring)
| Double (s : jsstring)
| Single (s : jsstring).

Definition piece_text (p : Piece) : jsstring :=
  match p with
  | Bare s => s
  | Double s => [DQUOTE] ++ s ++ [DQUOTE]
  | Single s => [SQUOTE] ++ s ++ [SQUOTE]
  end.

Definition piece_value (p : Piece) : jsstring :=
  match p with Bare s | Double s | Single s => s end.

Definition piece_ok (p : Piece) : bool :=
  match p with
  | Bare s => bare_word s
  | Double s => dq_safe s
  | Single s => sq_safe s
  end.

(** The words after [curl] in the command line of a request. *)
Definition pieces (a : Args) : list Piece :=
  [Bare (lit "--max-time"); Bare (Number_toString (default 30 (timeout a)))]
  ++ [Bare (lit "--user-agent");
      Double (default (lit "curl-mcp-server/1.1.0") (user_agent a))]
  ++ [Bare (lit "--silent")]
  ++ [Bare (lit "--show-error")]
  ++ (if default true (follow_redirects a) then [Bare (lit "--location")] else [])
  ++ (if default false (include_headers a) then [Bare (lit "--include")] else [])
  ++ [Bare (lit "--request"); Bare (default (lit "GET") (method a))]
  ++ flat_map (fun kv => [Bare (lit "--header"); Double (fst kv ++ lit ": " ++ snd kv)])
              (default [] (headers a))
  ++ (if guard_data a
      then [Bare (lit "--data"); Single (replace_quotes (default [] (data a)))]
      else [])
  ++ [Double (url a)].

(** The words after [curl] in the command line of a download. *)
Definition download_pieces (a : Download.Args) : list Piece :=
  [Bare (lit "--max-time"); Bare (Number_toString (default 300 (Download.timeout a)))]
  ++ [Bare (lit "--silent")]
  ++ [Bare (lit "--show-error")]
  ++ [Bare (lit "--progress-bar")]
  ++ (if default true (Download.follow_redirects a) then [Bare (lit "--location")] else [])
  ++ [Bare (lit "--output"); Double (Download.output_path a)]
  ++ [Double (Download.url a)].

(** [sep + p] for every piece: what [join] puts after the first piece. *)
Definition trail (ps : list Piece) : jsstring :=
  flat_map (fun p => 32%N :: piece_text p) ps.

(** A state of the shell reader in the first command of a line. *)
Definition sh_at (m : ShMode) (ws : list jsstring) (w : option jsstring) : ShState :=
  {| sh_done := []; sh_words := rev ws; sh_word := option_map (@rev code_unit) w;
     sh_mode := m; sh_escape := false |}.

(** A request none of whose values needs escaping: no double quote,
    backslash, dollar or backquote in the URL, the user agent and the
    headers, no single quote in the body, and a method that is one bare
    word. *)
Definition safe_request (a : Args) : bool :=
  dq_safe (url a)
  && dq_safe (default (lit "curl-mcp-server/1.1.0") (user_agent a))
  && bare_word (default (lit "GET") (method a))
  && forallb (fun kv => dq_safe (fst kv) && dq_safe (snd kv)) (default [] (headers a))
  && sq_safe (default [] (data a)).

Definition safe_download (a : Download.Args) : bool :=
  dq_safe (Download.url a) && dq_safe (Download.output_path a).

Definition with_headers (hs : list (jsstring * jsstring)) (a : Args) : Args :=
  {| url := url a; method := method a; headers := Some hs; data := data a;
     timeout := timeout a; follow_redirects := follow_redirects a;
     include_headers := include_headers a; user_agent := user_agent a;
     max_response_size := max_response_size a |}.

Definition with_include_headers (b : bool) (a : Args) : Args :=
  {| url := url a; method := method a; headers := headers a; data := data a;
     timeout := timeout a; follow_redirects := follow_redirects a;
     include_headers := Some b; user_agent := user_agent a;
     max_response_size := max_response_size a |}.

Definition with_timeout (t : Z) (a : Args) : Args :=
  {| url := url a; method := method a; headers := headers a; data := data a;
     timeout := Some t; follow_redirects := follow_redirects a;
     include_headers := include_headers a; user_agent := user_agent a;
     max_response_size := max_response_size a |}.
(** ** The definitions at work *)

Example command_of_a_post_request :
  command {| url := lit "https://httpbin.org/post";
             method := Some (lit "POST");
             headers := Some [(lit "Content-Type", lit "application/json")];
             data := Some (lit "{}");
             timeout := Some 5;
             follow_redirects := Some false;
             include_headers := Some true;
             user_agent := None;
             max_response_size := None |}
  = lit "curl --max-time 5 --user-agent " ++ [DQUOTE] ++ lit "curl-mcp-server/1.1.0"
    ++ [DQUOTE] ++ lit " --silent --show-error --include --request POST --header "
    ++ [DQUOTE] ++ lit "Content-Type: application/json" ++ [DQUOTE]
    ++ lit " --data " ++ [SQUOTE] ++ lit "{}" ++ [SQUOTE]
    ++ lit " " ++ [DQUOTE] ++ lit "https://httpbin.org/post" ++ [DQUOTE].
Proof. reflexivity. Qed.

Example parse_scalars_and_arrays :
  JSON_parse (lit " [1, -0, 2.5e3, true, null, [], {}] ")
  = Some (JArray [JInt 1; JInt 0; JNum (lit "2.5e3"); JBool true; JNull;
                  JArray []; JObject []]).
Proof. reflexivity. Qed.

Example parse_rejects :
  JSON_parse (lit "[1,]") = None
  /\ JSON_parse (lit "01") = None
  /\ JSON_parse (lit "1 2") = None
  /\ JSON_parse (lit "tru") = None
  /\ JSON_parse [] = None
  /\ JSON_parse (lit "hello") = None.
Proof. repeat split; reflexivity. Qed.

Example parse_orders_own_properties :
  JSON_parse (lit "{" ++ [DQUOTE] ++ lit "b" ++ [DQUOTE] ++ lit ":1,"
              ++ [DQUOTE] ++ lit "2" ++ [DQUOTE] ++ lit ":2,"
              ++ [DQUOTE] ++ lit "1" ++ [DQUOTE] ++ lit ":3,"
              ++ [DQUOTE] ++ lit "b" ++ [DQUOTE] ++ lit ":4}")
  = Some (JObject [(lit "1", JInt 3); (lit "2", JInt 2); (lit "b", JInt 4)]).
Proof. reflexivity. Qed.

Example stringify_indents :
  JSON_stringify (printing_host [])
    (JObject [(lit "a", JArray [JInt 1; JInt 2]); (lit "b", JString [DQUOTE; NEWLINE])])
  = lit "{" ++ [NEWLINE]
    ++ lit "  " ++ [DQUOTE] ++ lit "a" ++ [DQUOTE] ++ lit ": [" ++ [NEWLINE]
    ++ lit "    1," ++ [NEWLINE]
    ++ lit "    2" ++ [NEWLINE]
    ++ lit "  ]," ++ [NEWLINE]
    ++ lit "  " ++ [DQUOTE] ++ lit "b" ++ [DQUOTE] ++ lit ": "
    ++ [DQUOTE; BACKSLASH; DQUOTE; BACKSLASH] ++ lit "n" ++ [DQUOTE] ++ [NEWLINE]
    ++ lit "}".
Proof. reflexivity. Qed.

Example schemes :
  has_scheme (lit "https://example.com/") = true
  /\ has_scheme (lit "not-a-url") = false
  /\ has_scheme (lit "//example.com/") = false
  /\ has_scheme [] = false.
Proof. repeat split; reflexivity. Qed.

Example small_json_is_reprinted :
  call (V120.handleCurlRequest (printing_host (lit "[1,2]"))
          (request (lit "http://example.com/")))
  = (inr {| text := lit "[" ++ [NEWLINE] ++ lit "  1," ++ [NEWLINE] ++ lit "  2"
                    ++ [NEWLINE] ++ lit "]";
            isError := false |},
     [command (request (lit "http://example.com/"))]).
Proof. reflexivity. Qed.

(** ** Lists and strings *)

Lemma gtb_true (a b : Z) : b < a -> (a >? b) = true.
Proof. intros H. rewrite Z.gtb_ltb. now apply Z.ltb_lt. Qed.

Lemma gtb_false (a b : Z) : a <= b -> (a >? b) = false.
Proof. intros H. rewrite Z.gtb_ltb. now apply Z.ltb_ge. Qed.

Lemma gtb_false_inv (a b : Z) : (a >? b) = false -> a <= b.
Proof. rewrite Z.gtb_ltb. apply Z.ltb_ge. Qed.

(** Replaces the length of every string literal in the goal by its value. *)
Ltac literal_lengths :=
  repeat match goal with
    | |- context [strlen (lit ?s)] =>
        let n := eval vm_compute in (strlen (lit s)) in
        change (strlen (lit s)) with n
    | |- context [strlen (QuoteJSONString (lit ?s))] =>
        let n := eval vm_compute in (strlen (QuoteJSONString (lit s))) in
        change (strlen (QuoteJSONString (lit s))) with n
    | |- context [strlen [?c]] => change (strlen [c]) with 1
    | |- context [strlen (@nil code_unit)] => change (strlen (@nil code_unit)) with 0
    | |- context [strlen gap] => change (strlen gap) with 2
    end.

Lemma strlen_app (s t : jsstring) : strlen (s ++ t) = strlen s + strlen t.
Proof. unfold strlen. rewrite length_app. lia. Qed.

Lemma strlen_nonneg (s : jsstring) : 0 <= strlen s.
Proof. unfold strlen. lia. Qed.

Lemma substring_prefix (s : jsstring) (m : Z) :
  0 <= m -> substring s 0 m = firstn (Z.to_nat m) s.
Proof.
  intros Hm. unfold substring.
  pose proof (strlen_nonneg s) as Hs.
  replace (Z.min (Z.min (Z.max 0 0) (strlen s)) (Z.min (Z.max m 0) (strlen s)))
    with 0 by lia.
  replace (Z.max (Z.min (Z.max 0 0) (strlen s)) (Z.min (Z.max m 0) (strlen s)))
    with (Z.min m (strlen s)) by lia.
  rewrite Z.sub_0_r. simpl skipn.
  destruct (Z.le_gt_cases m (strlen s)) as [Hle | Hgt].
  - rewrite Z.min_l by lia. reflexivity.
  - rewrite Z.min_r by lia.
    unfold strlen in *. rewrite Nat2Z.id.
    rewrite !firstn_all2; trivial; lia.
Qed.

(** Adds to the context that the lengths at hand are not negative. *)
Ltac nonneg_length s :=
  lazymatch goal with
  | _ : 0 <= strlen s |- _ => fail
  | _ => pose proof (strlen_nonneg s)
  end.

Ltac nonneg_lengths :=
  repeat match goal with
    | |- context [strlen ?s] => nonneg_length s
    | _ : context [strlen ?s] |- _ => nonneg_length s
    end.

Lemma strlen_firstn (s : jsstring) (m : Z) :
  0 <= m -> strlen (firstn (Z.to_nat m) s) = Z.min m (strlen s).
Proof. intros Hm. unfold strlen. rewrite length_firstn. lia. Qed.

(** ** Byte truncation *)




(** ** The first statements of the handler *)

Lemma run_curl_invalid (h : Host) (a : Args) (log : list jsstring) :
  URL_parses h (url a) = false ->
  run_curl h a log = (inl (Error (lit "Invalid URL: " ++ url a)), log).
Proof. intros Hurl. unfold run_curl, bind. rewrite Hurl. reflexivity. Qed.

Lemma run_curl_valid (h : Host) (a : Args) (log : list jsstring) :
  URL_parses h (url a) = true ->
  run_curl h a log = execAsync h (command a) maxBuffer log.
Proof. intros Hurl. unfold run_curl, bind. rewrite Hurl. reflexivity. Qed.

Lemma utf8_length_bounds (s : jsstring) :
  strlen s <= utf8_length s <= 3 * strlen s.
Proof.
  assert (H : forall (n : nat) (t : jsstring), (length t <= n)%nat ->
                strlen t <= utf8_length t <= 3 * strlen t).
  { unfold strlen. induction n as [|n IH]; intros [|c r] Hlen; cbn [length] in Hlen;
      try (cbn; lia).
    assert (Hr : Z.of_nat (length r) <= utf8_length r <= 3 * Z.of_nat (length r))
      by (apply IH; lia).
    cbn [utf8_length length]. rewrite Nat2Z.inj_succ.
    destruct (c <? 128)%N; [lia|]. destruct (c <? 2048)%N; [lia|].
    destruct ((55296 <=? c) && (c <=? 56319))%N; [|lia].
    destruct r as [|d r']; [cbn; lia|].
    destruct ((56320 <=? d) && (d <=? 57343))%N; [|lia].
    assert (Hr' : Z.of_nat (length r') <= utf8_length r' <= 3 * Z.of_nat (length r'))
      by (apply IH; cbn [length] in Hlen; lia).
    cbn [length]. rewrite Nat2Z.inj_succ. lia. }
  apply (H (length s)). lia.
Qed.


Lemma execAsync_resolved (h : Host) (c : jsstring) (b : Z) (log log' : list jsstring)
  (stdout stderr : jsstring) :
  execAsync h c b log = (inr (stdout, stderr), log') ->
  stdout = proc_stdout (spawn h c) /\ stderr = proc_stderr (spawn h c)
  /\ strlen stdout <= b /\ strlen stderr <= b
  /\ exit_code (spawn h c) = 0 /\ log' = log ++ [c].
Proof.
  unfold execAsync.
  destruct (utf8_length (proc_stdout (spawn h c)) >? b) eqn:Hout; [discriminate|].
  destruct (utf8_length (proc_stderr (spawn h c)) >? b) eqn:Herr; [discriminate|].
  destruct (exit_code (spawn h c) =? 0) eqn:Hexit; [|discriminate].
  intros H. inversion H; subst.
  apply gtb_false_inv in Hout. apply gtb_false_inv in Herr. apply Z.eqb_eq in Hexit.
  pose proof (utf8_length_bounds (proc_stdout (spawn h c))).
  pose proof (utf8_length_bounds (proc_stderr (spawn h c))).
  repeat split; trivial; lia.
Qed.

Lemma execAsync_success (h : Host) (c : jsstring) (b : Z) (log : list jsstring) :
  exit_code (spawn h c) = 0 ->
  utf8_length (proc_stdout (spawn h c)) <= b ->
  utf8_length (proc_stderr (spawn h c)) <= b ->
  execAsync h c b log = (inr (proc_stdout (spawn h c), proc_stderr (spawn h c)), log ++ [c]).
Proof.
  intros Hexit Hout Herr. unfold execAsync.
  rewrite !gtb_false, Hexit by trivial. reflexivity.
Qed.

Lemma run_curl_resolved (h : Host) (a : Args) (log log' : list jsstring)
  (stdout stderr : jsstring) :
  run_curl h a log = (inr (stdout, stderr), log') ->
  URL_parses h (url a) = true
  /\ stdout = proc_stdout (spawn h (command a))
  /\ stderr = proc_stderr (spawn h (command a))
  /\ strlen stdout <= maxBuffer /\ log' = log ++ [command a].
Proof.
  intros Hrun. destruct (URL_parses h (url a)) eqn:Hurl.
  - rewrite run_curl_valid in Hrun by trivial.
    apply execAsync_resolved in Hrun. intuition.
  - rewrite run_curl_invalid in Hrun by trivial. discriminate.
Qed.

(** The structural stage never throws: [null], the only value on which
    [Object.entries] would, prints as four characters. *)
Lemma final_text_returns (h : Host) (response : jsstring) (log : list jsstring) :
  exists t, V120.final_text h response log = (inr t, log).
Proof.
  unfold V120.final_text.
  destruct (JSON_parse response) as [v|]; [|eexists; reflexivity].
  unfold bind.
  destruct (strlen (JSON_stringify h v) >? 1000000) eqn:Hbig;
    [|eexists; reflexivity].
  destruct v; try (eexists; reflexivity).
  discriminate Hbig.
Qed.

(** ** The body argument *)

Lemma curlCmd_without_data (a : Args) :
  truthy (data a) && includes body_methods (default (lit "GET") (method a)) = false ->
  curlCmd a = curlCmd (without_data a).
Proof.
  intros Hguard. unfold curlCmd, body_methods in *. rewrite Hguard. reflexivity.
Qed.

Lemma literal_prefix_not_data (p rest : jsstring) :
  starts_with (lit "--data") (firstn 6 p) = false -> (6 <= length p)%nat ->
  starts_with (lit "--data") (p ++ rest) = false.
Proof.
  unfold starts_with. change (length (lit "--data")) with 6%nat.
  intros H Hlen. rewrite firstn_app.
  replace (6 - length p)%nat with 0%nat by lia.
  rewrite firstn_O, app_nil_r.
  rewrite firstn_firstn in H. exact H.
Qed.

Lemma curlCmd_no_data_piece (a : Args) :
  truthy (data a) && includes body_methods (default (lit "GET") (method a)) = false ->
  Forall (fun piece => starts_with (lit "--data") piece = false) (curlCmd a).
Proof.
  intros Hguard. unfold curlCmd, body_methods in *. rewrite Hguard.
  repeat (apply Forall_app; split);
    try (destruct (default true (follow_redirects a)));
    try (destruct (default false (include_headers a)));
    repeat constructor;
    try (apply literal_prefix_not_data; [reflexivity | simpl; lia]).
  all: apply Forall_map, Forall_forall; intros kv _.
  all: apply literal_prefix_not_data; [reflexivity | simpl; lia].
Qed.

Lemma handlers_without_data (a : Args) :
  curlCmd a = curlCmd (without_data a) ->
  forall h, V120.handleCurlRequest h a = V120.handleCurlRequest h (without_data a)
            /\ V110.handleCurlRequest h a = V110.handleCurlRequest h (without_data a).
Proof.
  intros Hcmd h.
  assert (Hc : command a = command (without_data a)) by (unfold command; now rewrite Hcmd).
  unfold V120.handleCurlRequest, V110.handleCurlRequest,
    V110.result_object, V110.oversized_object, run_curl.
  rewrite Hc. split; reflexivity.
Qed.

(** C9. With a [data] payload and a method that is not POST, PUT or PATCH,
    the [curlCmd] array is the one built without [data], none of its pieces
    is a [--data] argument, and both revisions of the handler behave as if
    [data] had been left out. *)
Theorem C9_body_omitted_without_body_verb (a : Args) (d : jsstring)
  (Hdata : data a = Some d)
  (Hmethod : includes body_methods (default (lit "GET") (method a)) = false) :
  curlCmd a = curlCmd (without_data a)
  /\ Forall (fun piece => starts_with (lit "--data") piece = false) (curlCmd a)
  /\ forall h, V120.handleCurlRequest h a = V120.handleCurlRequest h (without_data a)
               /\ V110.handleCurlRequest h a = V110.handleCurlRequest h (without_data a).
Proof.
  assert (Hguard : truthy (data a)
                   && includes body_methods (default (lit "GET") (method a)) = false)
    by (rewrite Hmethod; apply andb_false_r).
  split; [|split].
  - now apply curlCmd_without_data.
  - now apply curlCmd_no_data_piece.
  - apply handlers_without_data. now apply curlCmd_without_data.
Qed.

(** The theorem at a GET request that comes with a payload. *)
Lemma C9_body_omitted_witness :
  let a := with_data (lit "payload")
             (with_method (lit "GET") (request (lit "http://example.com/"))) in
  data a = Some (lit "payload")
  /\ includes body_methods (default (lit "GET") (method a)) = false
  /\ curlCmd a = curlCmd (without_data a)
  /\ Forall (fun piece => starts_with (lit "--data") piece = false) (curlCmd a).
Proof.
  intros a.
  split; [reflexivity | split; [reflexivity|]].
  destruct (C9_body_omitted_without_body_verb a (lit "payload") eq_refl eq_refl)
    as (Hcmd & Hpieces & _).
  split; assumption.
Defined.

(** C10. With [data] equal to the empty string the guard [data && ...] is
    false whatever the method, POST, PUT and PATCH included: the [curlCmd]
    array is the one built without [data], none of its pieces is a [--data]
    argument, and both revisions of the handler behave as if [data] had been
    left out. *)
Theorem C10_empty_body_is_absent (a : Args)
  (Hdata : data a = Some [])
  (Hmethod : includes body_methods (default (lit "GET") (method a)) = true) :
  curlCmd a = curlCmd (without_data a)
  /\ Forall (fun piece => starts_with (lit "--data") piece = false) (curlCmd a)
  /\ forall h, V120.handleCurlRequest h a = V120.handleCurlRequest h (without_data a)
               /\ V110.handleCurlRequest h a = V110.handleCurlRequest h (without_data a).
Proof.
  assert (Hguard : truthy (data a)
                   && includes body_methods (default (lit "GET") (method a)) = false)
    by (rewrite Hdata; reflexivity).
  split; [|split].
  - now apply curlCmd_without_data.
  - now apply curlCmd_no_data_piece.
  - apply handlers_without_data. now apply curlCmd_without_data.
Qed.

(** The theorem at a POST request whose [data] is the empty string. *)
Lemma C10_empty_body_witness :
  let a := with_data [] (with_method (lit "POST") (request (lit "http://example.com/"))) in
  data a = Some []
  /\ includes body_methods (default (lit "GET") (method a)) = true
  /\ curlCmd a = curlCmd (without_data a)
  /\ Forall (fun piece => starts_with (lit "--data") piece = false) (curlCmd a).
Proof.
  intros a.
  split; [reflexivity | split; [reflexivity|]].
  destruct (C10_empty_body_is_absent a eq_refl eq_refl) as (Hcmd & Hpieces & _).
  split; assumption.
Defined.

(** ** URL validation *)

Lemma invalid_url_results (h : Host) (a : Args) :
  URL_parses h (url a) = false ->
  call (V120.handleCurlRequest h a)
  = (inr {| text := error_text h (lit "Invalid URL: " ++ url a) None;
            isError := true |}, [])
  /\ call (V110.handleCurlRequest h a)
     = (inr {| text := JSON_stringify h
                         (JObject [(lit "success", JBool false);
                                   (lit "error", JString (lit "Invalid URL: " ++ url a));
                                   (lit "stderr", JNull)]);
               isError := true |}, []).
Proof.
  intros Hurl.
  unfold call, V120.handleCurlRequest, V110.handleCurlRequest, try_catch, bind.
  rewrite run_curl_invalid by trivial. split; reflexivity.
Qed.

(** C8. A URL that [new URL] rejects makes both revisions return an error
    result whose message is [Invalid URL: ] followed by the URL, and the log
    of spawned commands stays empty; [not-a-url] is such a URL on every
    host, for it has no scheme. *)
Theorem C8_invalid_url_fails_before_spawn :
  (forall h, URL_parses h (lit "not-a-url") = false)
  /\ forall h a, URL_parses h (url a) = false ->
       call (V120.handleCurlRequest h a)
       = (inr {| text := error_text h (lit "Invalid URL: " ++ url a) None;
                 isError := true |}, [])
       /\ call (V110.handleCurlRequest h a)
          = (inr {| text := JSON_stringify h
                              (JObject [(lit "success", JBool false);
                                        (lit "error", JString (lit "Invalid URL: " ++ url a));
                                        (lit "stderr", JNull)]);
                    isError := true |}, []).
Proof.
  split.
  - intros h. destruct (URL_parses h (lit "not-a-url")) eqn:Hurl; trivial.
    apply URL_parses_scheme in Hurl. discriminate Hurl.
  - apply invalid_url_results.
Qed.

(** The theorem at the URL [not-a-url]. *)
Lemma C8_invalid_url_witness :
  let h := printing_host (lit "unused") in
  let a := request (lit "not-a-url") in
  URL_parses h (url a) = false
  /\ call (V120.handleCurlRequest h a)
     = (inr {| text := error_text h (lit "Invalid URL: not-a-url") None;
               isError := true |}, []).
Proof.
  intros h a. split; [reflexivity|].
  exact (proj1 (proj2 C8_invalid_url_fails_before_spawn h a eq_refl)).
Defined.

(** ** The method *)




Lemma v120_success (h : Host) (a : Args) (stdout stderr : jsstring) (log : list jsstring) :
  call (run_curl h a) = (inr (stdout, stderr), log) ->
  exists t,
    V120.final_text h
      (fst (fst (byte_truncate stdout (default 800000 (max_response_size a))))) log
    = (inr t, log)
    /\ call (V120.handleCurlRequest h a) = (inr {| text := t; isError := false |}, log).
Proof.
  unfold call. intros Hrun.
  unfold V120.handleCurlRequest, try_catch, bind. rewrite Hrun.
  change (fst (stdout, stderr)) with stdout.
  destruct (byte_truncate stdout (default 800000 (max_response_size a)))
    as [[response truncated] originalSize].
  destruct (final_text_returns h response log) as [t Ht].
  exists t. cbn [fst]. rewrite Ht. split; reflexivity.
Qed.

(** Both handlers return a result on every call. *)
Lemma request_returns_v120 (h : Host) (a : Args) :
  exists r log, call (V120.handleCurlRequest h a) = (inr r, log).
Proof.
  unfold call, V120.handleCurlRequest, try_catch, bind.
  destruct (run_curl h a []) as [[e | out] log]; [eexists; eexists; reflexivity|].
  destruct (byte_truncate (fst out) (default 800000 (max_response_size a)))
    as [[response truncated] originalSize].
  destruct (final_text_returns h response log) as [t Ht]. rewrite Ht.
  eexists; eexists; reflexivity.
Qed.

Lemma request_returns_v110 (h : Host) (a : Args) :
  exists r log, call (V110.handleCurlRequest h a) = (inr r, log).
Proof.
  unfold call, V110.handleCurlRequest, try_catch, bind.
  destruct (run_curl h a []) as [[e | out] log]; [eexists; eexists; reflexivity|].
  destruct (strlen _ >? 1000000); eexists; eexists; reflexivity.
Qed.



(** ** The capture buffer *)

(** C2, as the claim states it, fails: the handler takes a
    [max_response_size] of 20000000 like any other, and the cap is below
    it. *)
Lemma C2_limit_above_cap :
  let a := with_max_response_size 20000000 (request (lit "http://example.com/")) in
  call (V120.handleCurlRequest (printing_host (lit "hello")) a)
  = (inr {| text := lit "hello"; isError := false |}, [command a])
  /\ ~ (default 800000 (max_response_size a) < maxBuffer).
Proof. vm_compute. split; [reflexivity | discriminate]. Qed.

Lemma byte_truncate_above (stdout : jsstring) (m : Z) :
  strlen stdout <= m -> byte_truncate stdout m = (stdout, false, strlen stdout).
Proof.
  intros Hle. unfold byte_truncate. now rewrite gtb_false.
Qed.

Lemma overflow_results (h : Host) (a : Args) :
  URL_parses h (url a) = true ->
  strlen (proc_stdout (spawn h (command a))) > maxBuffer ->
  call (V120.handleCurlRequest h a)
  = (inr {| text := error_text h (lit "stdout maxBuffer length exceeded")
                      (Some (proc_stderr (spawn h (command a))));
            isError := true |}, [command a]).
Proof.
  intros Hurl Hbig.
  unfold call, V120.handleCurlRequest, try_catch, bind.
  rewrite run_curl_valid by trivial. unfold execAsync.
  pose proof (utf8_length_bounds (proc_stdout (spawn h (command a)))).
  rewrite gtb_true by lia. reflexivity.
Qed.

(** C2, amended.  The output that [exec] hands to the handler is never
    longer than the fixed [maxBuffer] of 10 * 1024 * 1024, which no argument
    of the request changes; a longer output makes the call an error.  The
    cap is more than thirteen times the default [max_response_size] of
    800000, but [max_response_size] has no upper bound, and from the cap
    upwards it never truncates. *)
Theorem C2_capture_cap (h : Host) (a : Args) :
  maxBuffer = 10485760
  /\ 13 * 800000 < maxBuffer
  /\ (forall m, run_curl h (with_max_response_size m a) = run_curl h a)
  /\ (forall stdout stderr log,
        call (run_curl h a) = (inr (stdout, stderr), log) ->
        strlen stdout <= maxBuffer
        /\ forall m, maxBuffer <= m ->
             byte_truncate stdout m = (stdout, false, strlen stdout))
  /\ (URL_parses h (url a) = true ->
      strlen (proc_stdout (spawn h (command a))) > maxBuffer ->
      call (V120.handleCurlRequest h a)
      = (inr {| text := error_text h (lit "stdout maxBuffer length exceeded")
                          (Some (proc_stderr (spawn h (command a))));
                isError := true |}, [command a])).
Proof.
  split; [reflexivity|]. split; [reflexivity|]. split; [reflexivity|]. split.
  - intros stdout stderr log Hrun.
    apply run_curl_resolved in Hrun. destruct Hrun as (_ & _ & _ & Hle & _).
    split; trivial. intros m Hm. apply byte_truncate_above. lia.
  - apply overflow_results.
Qed.

(** The theorem at a request whose command prints [hello]. *)
Lemma C2_capture_cap_witness :
  let h := printing_host (lit "hello") in
  let a := request (lit "http://example.com/") in
  call (run_curl h a) = (inr (lit "hello", []), [command a])
  /\ strlen (lit "hello") <= maxBuffer.
Proof.
  intros h a. split; [reflexivity|].
  destruct (C2_capture_cap h a) as (_ & _ & _ & Hcap & _).
  exact (proj1 (Hcap (lit "hello") [] [command a] eq_refl)).
Defined.

(** ** Truncation metadata *)

(** C6, as the claim states it, fails on version 1.2.0: an output cut from
    eleven code units to five gives the very result that the uncut output
    [hello] gives, the text and nothing else. *)
Lemma C6_v120_drops_metadata :
  let a := with_max_response_size 5 (request (lit "http://example.com/")) in
  byte_truncate (lit "hello world") 5 = (lit "hello", true, 11)
  /\ call (V120.handleCurlRequest (printing_host (lit "hello world")) a)
     = (inr {| text := lit "hello"; isError := false |}, [command a])
  /\ call (V120.handleCurlRequest (printing_host (lit "hello")) a)
     = (inr {| text := lit "hello"; isError := false |}, [command a]).
Proof. vm_compute. repeat split; reflexivity. Qed.

(** C6, amended.  When the output is longer than [max_response_size]:
    version 1.1.0 returns the [result] object with [truncated],
    [original_size], [truncated_size], [truncation_note] and [warning]
    added, unless that object prints longer than 1000000, in which case it
    returns the sample object with [truncated], [original_size] and a note;
    version 1.2.0 returns only the text computed from the cut [response],
    with no metadata. *)
Theorem C6_truncation_metadata (h : Host) (a : Args) (stdout stderr : jsstring)
  (log : list jsstring)
  (Hrun : call (run_curl h a) = (inr (stdout, stderr), log))
  (Hlimit : 0 <= default 800000 (max_response_size a))
  (Htruncated : strlen stdout > default 800000 (max_response_size a)) :
  let m := default 800000 (max_response_size a) in
  let response := firstn (Z.to_nat m) stdout in
  let result := [(lit "success", JBool true);
                 (lit "command", JString (command a));
                 (lit "response", JString response);
                 (lit "error", or_null (Some stderr))]
                ++ truncation_fields (strlen stdout) m in
  let sample := [(lit "success", JBool true);
                 (lit "truncated", JBool true);
                 (lit "original_size", JInt (strlen stdout));
                 (lit "error", JString (lit "Response too large even after truncation"));
                 (lit "sample", JString (substring response 0 50000));
                 (lit "note",
                  JString (lit "Only showing first 50KB of response due to size constraints"))] in
  call (V110.handleCurlRequest h a)
  = (inr {| text := if strlen (JSON_stringify h (JObject result)) >? 1000000
                    then JSON_stringify h (JObject sample)
                    else JSON_stringify h (JObject result);
            isError := false |}, log)
  /\ exists t, V120.final_text h response log = (inr t, log)
               /\ call (V120.handleCurlRequest h a)
                  = (inr {| text := t; isError := false |}, log).
Proof.
  intros m response result sample.
  assert (Hcut : byte_truncate stdout m = (response, true, strlen stdout)).
  { unfold byte_truncate. rewrite gtb_true by lia.
    rewrite substring_prefix by trivial. reflexivity. }
  split.
  - unfold call in *.
    unfold V110.handleCurlRequest, try_catch, bind. rewrite Hrun.
    unfold V110.result_object, V110.oversized_object.
    change (fst (stdout, stderr)) with stdout.
    change (snd (stdout, stderr)) with stderr.
    fold m. rewrite Hcut.
    fold (truncation_fields (strlen stdout) m). fold result. fold sample.
    destruct (strlen (JSON_stringify h (JObject result)) >? 1000000); reflexivity.
  - destruct (v120_success h a stdout stderr log Hrun) as (t & Ht & Hcall).
    fold m in Ht. rewrite Hcut in Ht. exists t. split; assumption.
Qed.

(** The theorem at an output of eleven code units and a limit of five. *)
Lemma C6_truncation_metadata_witness :
  let h := printing_host (lit "hello world") in
  let a := with_max_response_size 5 (request (lit "http://example.com/")) in
  call (run_curl h a) = (inr (lit "hello world", []), [command a])
  /\ 0 <= default 800000 (max_response_size a)
  /\ strlen (lit "hello world") > default 800000 (max_response_size a)
  /\ exists t, call (V120.handleCurlRequest h a)
               = (inr {| text := t; isError := false |}, [command a]).
Proof.
  intros h a.
  assert (Hrun : call (run_curl h a) = (inr (lit "hello world", []), [command a]))
    by reflexivity.
  assert (Hlimit : 0 <= default 800000 (max_response_size a)) by (simpl; lia).
  assert (Htruncated : strlen (lit "hello world") > default 800000 (max_response_size a))
    by reflexivity.
  repeat (split; trivial).
  destruct (C6_truncation_metadata h a (lit "hello world") [] [command a]
              Hrun Hlimit Htruncated) as (_ & t & _ & Hcall).
  exists t. exact Hcall.
Defined.

(** ** Quoting *)

(** C1: the code at inputs where it breaks the claim.  A body without
    quotes reaches curl as one word.  For the body [it's] the command line
    holds [--data 'it\'s']: inside single quotes the backslash is an
    ordinary character, the quote after it ends the word and the last quote
    opens a string that never ends, so the shell rejects the line.  For the
    body [x';id;echo \'y] the shell reads three commands, and curl is given
    the body [x\].  A user agent with a double quote breaks out in the same
    way. *)
Theorem C1_quotes_break_out :
  command (post (lit "it" ++ [SQUOTE] ++ lit "s"))
  = lit "curl --max-time 30 --user-agent " ++ [DQUOTE] ++ lit "curl-mcp-server/1.1.0"
    ++ [DQUOTE] ++ lit " --silent --show-error --location --request POST --data "
    ++ [SQUOTE] ++ lit "it" ++ [BACKSLASH; SQUOTE] ++ lit "s" ++ [SQUOTE]
    ++ lit " " ++ [DQUOTE] ++ lit "http://h/" ++ [DQUOTE]
  /\ sh_read (command (post (lit "a b")))
     = ShCommands [curl_words ++ [lit "--request"; lit "POST"; lit "--data"; lit "a b";
                                  lit "http://h/"]]
  /\ sh_read (command (post (lit "it" ++ [SQUOTE] ++ lit "s"))) = ShUnterminated
  /\ sh_read (command (post (lit "x" ++ [SQUOTE] ++ lit ";id;echo "
                             ++ [BACKSLASH; SQUOTE] ++ lit "y")))
     = ShCommands [curl_words ++ [lit "--request"; lit "POST"; lit "--data";
                                  lit "x" ++ [BACKSLASH]];
                   [lit "id"];
                   [lit "echo"; [BACKSLASH] ++ lit "y"; lit "http://h/"]]
  /\ sh_read (command (with_user_agent (lit "x" ++ [DQUOTE] ++ lit ";id;" ++ [DQUOTE])
                         (request (lit "http://h/"))))
     = ShCommands [[lit "curl"; lit "--max-time"; lit "30"; lit "--user-agent"; lit "x"];
                   [lit "id"];
                   [[]; lit "--silent"; lit "--show-error"; lit "--location";
                    lit "--request"; lit "GET"; lit "http://h/"]].
Proof. vm_compute. repeat split; reflexivity. Qed.

(** ** Own properties of objects *)

Lemma jsstring_eqb_eq (a b : jsstring) : jsstring_eqb a b = true <-> a = b.
Proof.
  revert b. induction a as [|x a IH]; intros [|y b]; simpl; split; try easy.
  - intros H. apply andb_true_iff in H. destruct H as [Hx Hab].
    apply N.eqb_eq in Hx. apply IH in Hab. now subst.
  - intros H. inversion H; subst. rewrite N.eqb_refl. simpl. now apply IH.
Qed.

Lemma has_key_false (k : jsstring) (es : list (jsstring * JsValue)) :
  has_key k es = false <-> ~ In k (map fst es).
Proof.
  induction es as [|[k' v'] es IH]; simpl.
  - easy.
  - rewrite orb_false_iff, IH. split.
    + intros [Hne Hnot] [Heq | Hin]; [|now apply Hnot].
      subst. assert (jsstring_eqb k k = true) by now apply jsstring_eqb_eq.
      congruence.
    + intros Hnot. split.
      * destruct (jsstring_eqb k k') eqn:E; trivial.
        apply jsstring_eqb_eq in E. subst. exfalso. apply Hnot. now left.
      * intros Hin. apply Hnot. now right.
Qed.

Lemma replace_value_keys (k : jsstring) (v : JsValue) (es : list (jsstring * JsValue)) :
  map fst (replace_value k v es) = map fst es.
Proof.
  induction es as [|[k' v'] es IH]; simpl; trivial.
  destruct (jsstring_eqb k k'); simpl; now rewrite ?IH.
Qed.

(** *** Numerals *)

Lemma is_digit_range (c : code_unit) : is_digit c = true -> (48 <= c <= 57)%N.
Proof.
  unfold is_digit. intros H. apply andb_true_iff in H.
  destruct H as [H1 H2]. apply N.leb_le in H1. apply N.leb_le in H2. lia.
Qed.

Lemma fold_digits_bounds (s : jsstring) (acc : N) :
  forallb is_digit s = true ->
  (acc * 10 ^ N.of_nat (length s) <= fold_left digit_step s acc
   < (acc + 1) * 10 ^ N.of_nat (length s))%N.
Proof.
  revert acc. induction s as [|c s IH]; intros acc Hd.
  - simpl. lia.
  - simpl in Hd. apply andb_true_iff in Hd. destruct Hd as [Hc Hs].
    apply is_digit_range in Hc.
    specialize (IH (digit_step acc c) Hs).
    cbn [fold_left length].
    rewrite Nat2N.inj_succ, N.pow_succ_r'.
    set (P := (10 ^ N.of_nat (length s))%N) in *.
    set (F := fold_left digit_step s (digit_step acc c)) in *.
    unfold digit_step in IH.
    assert (Hd : (c - 48 <= 9)%N) by lia.
    set (d := (c - 48)%N) in *. nia.
Qed.

Lemma fold_digits_same_length (s t : jsstring) (a b : N) :
  length s = length t ->
  forallb is_digit s = true -> forallb is_digit t = true ->
  fold_left digit_step s a = fold_left digit_step t b ->
  a = b /\ s = t.
Proof.
  revert t a b. induction s as [|c s IH] using rev_ind; intros t a b Hlen Hs Ht Hv.
  - destruct t; [|discriminate]. simpl in Hv. now split.
  - destruct (exists_last (l := t)) as (t' & d & ->).
    { intros ->. rewrite length_app in Hlen. simpl in Hlen. lia. }
    rewrite !length_app in Hlen. simpl in Hlen.
    rewrite !forallb_app in Hs, Ht. simpl in Hs, Ht.
    apply andb_true_iff in Hs. destruct Hs as [Hs Hc].
    apply andb_true_iff in Ht. destruct Ht as [Ht Hd].
    rewrite andb_true_r in Hc, Hd.
    apply is_digit_range in Hc. apply is_digit_range in Hd.
    rewrite !fold_left_app in Hv. cbn [fold_left] in Hv.
    set (F := fold_left digit_step s a) in *.
    set (G := fold_left digit_step t' b) in *.
    unfold digit_step in Hv.
    assert (Hp : F = G) by lia.
    assert (Hcd : c = d) by lia.
    destruct (IH t' a b) as [Hab Hst]; trivial; [lia|].
    subst. now split.
Qed.

Lemma array_index_spec (k : jsstring) (n : N) :
  array_index k = Some n ->
  forallb is_digit k = true /\ n = fold_left digit_step k 0%N
  /\ (k = [48%N] \/ (10 ^ N.of_nat (length k - 1) <= n)%N).
Proof.
  unfold array_index. destruct k as [|c r]; [discriminate|].
  destruct (forallb is_digit (c :: r)) eqn:Hd; [|discriminate].
  simpl andb.
  destruct (negb (N.eqb c 48) || match r with [] => true | _ => false end) eqn:Hcanon;
    [|discriminate].
  destruct (digits_value (c :: r) <=? 4294967294)%N; [|discriminate].
  intros H. inversion H; subst. split; trivial. split; [reflexivity|].
  apply orb_true_iff in Hcanon. destruct Hcanon as [Hnz | Hone].
  - right. apply negb_true_iff, N.eqb_neq in Hnz.
    simpl in Hd. apply andb_true_iff in Hd. destruct Hd as [Hc Hr].
    apply is_digit_range in Hc.
    unfold digits_value. cbn [fold_left length].
    replace (S (length r) - 1)%nat with (length r) by lia.
    pose proof (fold_digits_bounds r (0 * 10 + (c - 48))%N Hr) as [Hlo _].
    change (digit_step 0 c) with (0 * 10 + (c - 48))%N.
    set (F := fold_left digit_step r (0 * 10 + (c - 48))%N) in *.
    set (P := (10 ^ N.of_nat (length r))%N) in *.
    assert (1 <= c - 48)%N by lia. nia.
  - destruct r; [|discriminate].
    simpl in Hd. rewrite andb_true_r in Hd. apply is_digit_range in Hd.
    destruct (N.eq_dec c 48) as [->|Hne]; [now left|].
    right. unfold digits_value, digit_step. simpl. lia.
Qed.

Lemma array_index_inj (a b : jsstring) (n : N) :
  array_index a = Some n -> array_index b = Some n -> a = b.
Proof.
  intros Ha Hb.
  apply array_index_spec in Ha. destruct Ha as (Hda & Hva & Hca).
  apply array_index_spec in Hb. destruct Hb as (Hdb & Hvb & Hcb).
  assert (Hlen : length a = length b).
  { pose proof (fold_digits_bounds a 0%N Hda) as [_ Hua].
    pose proof (fold_digits_bounds b 0%N Hdb) as [_ Hub].
    rewrite <- Hva in Hua. rewrite <- Hvb in Hub.
    destruct Hca as [-> | Hla]; destruct Hcb as [-> | Hlb]; trivial.
    - vm_compute in Hva. subst n.
      assert (0 < 10 ^ N.of_nat (length b - 1))%N by (apply N.neq_0_lt_0, N.pow_nonzero; lia).
      lia.
    - vm_compute in Hvb. subst n.
      assert (0 < 10 ^ N.of_nat (length a - 1))%N by (apply N.neq_0_lt_0, N.pow_nonzero; lia).
      lia.
    - destruct (Nat.lt_trichotomy (length a) (length b)) as [Hlt | [Heq | Hgt]]; trivial.
      + assert (10 ^ N.of_nat (length a) <= 10 ^ N.of_nat (length b - 1))%N
          by (apply N.pow_le_mono_r; lia).
        lia.
      + assert (10 ^ N.of_nat (length b) <= 10 ^ N.of_nat (length a - 1))%N
          by (apply N.pow_le_mono_r; lia).
        lia. }
  apply (fold_digits_same_length a b 0%N 0%N); trivial. congruence.
Qed.

(** *** Own-property order *)

Lemma key_before_neq (k1 k2 : jsstring) : key_before k1 k2 -> k1 <> k2.
Proof.
  unfold key_before. intros H ->.
  destruct (array_index k2); [lia | now apply H].
Qed.

Lemma insert_index_keys (P : jsstring -> Prop) (n : N) (k : jsstring) (v : JsValue)
  (es : list (jsstring * JsValue)) :
  P k -> Forall P (map fst es) -> Forall P (map fst (insert_index n k v es)).
Proof.
  intros Hk. induction es as [|[k' v'] es IH]; simpl; intros Hes.
  - now constructor.
  - inversion Hes; subst.
    destruct (array_index k') as [n'|]; [destruct (n' <? n)%N|]; simpl;
      repeat constructor; auto.
Qed.

Lemma insert_index_order (n : N) (k : jsstring) (v : JsValue)
  (es : list (jsstring * JsValue)) :
  array_index k = Some n -> ~ In k (map fst es) ->
  own_order es -> own_order (insert_index n k v es).
Proof.
  unfold own_order. intros Hk.
  induction es as [|[k' v'] es IH]; simpl; intros Hnot Hes.
  - repeat constructor.
  - inversion Hes as [|? ? Hrest Hall]; subst.
    assert (Hafter : array_index k' = None \/ (exists n', array_index k' = Some n' /\ (n < n')%N)
                     -> StronglySorted key_before (k :: k' :: map fst es)).
    { intros Hk'. constructor; trivial. constructor.
      - unfold key_before. rewrite Hk.
        destruct Hk' as [-> | (n' & -> & Hlt)]; trivial.
      - rewrite Forall_forall in Hall |- *. intros x Hx. specialize (Hall x Hx).
        unfold key_before in *. rewrite Hk.
        destruct Hk' as [Hnone | (n' & Hsome & Hlt)].
        + rewrite Hnone in Hall. destruct (array_index x); [contradiction | trivial].
        + rewrite Hsome in Hall. destruct (array_index x); [lia | trivial]. }
    destruct (array_index k') as [n'|] eqn:Hk'.
    + destruct (N.ltb_spec n' n) as [Hlt | Hge].
      * simpl. constructor.
        -- apply IH; trivial. intros Hin. apply Hnot. now right.
        -- apply insert_index_keys; trivial.
           unfold key_before. now rewrite Hk', Hk.
      * apply Hafter. right. exists n'. split; trivial.
        destruct (N.eq_dec n n') as [->|Hne]; [|lia].
        exfalso. apply Hnot. left. simpl. apply (array_index_inj k' k n'); trivial.
    + apply Hafter. now left.
Qed.

Lemma object_put_order (k : jsstring) (v : JsValue) (es : list (jsstring * JsValue)) :
  own_order es -> own_order (object_put k v es).
Proof.
  intros Hes. unfold object_put.
  destruct (has_key k es) eqn:Hhas.
  - unfold own_order. now rewrite replace_value_keys.
  - apply has_key_false in Hhas.
    destruct (array_index k) as [n|] eqn:Hk.
    + now apply insert_index_order.
    + unfold own_order in *. rewrite map_app. simpl.
      induction (map fst es) as [|k' ks IH]; simpl.
      * repeat constructor.
      * inversion Hes as [|? ? Hrest Hall]; subst.
        constructor.
        -- apply IH; trivial. intros Hin. apply Hhas. now right.
        -- apply Forall_app. split; trivial. constructor; [|constructor].
           unfold key_before. rewrite Hk.
           destruct (array_index k'); trivial.
           intros ->. apply Hhas. now left.
Qed.

Lemma fold_put_order (pairs acc : list (jsstring * JsValue)) :
  own_order acc ->
  own_order (fold_left (fun o kv => object_put (fst kv) (snd kv) o) pairs acc).
Proof.
  revert acc. induction pairs as [|[k v] pairs IH]; simpl; intros acc Hacc; trivial.
  apply IH. now apply object_put_order.
Qed.

Lemma Object_fromEntries_order (pairs : list (jsstring * JsValue)) :
  own_order (Object_fromEntries pairs).
Proof. apply fold_put_order. constructor. Qed.

Lemma insert_index_last (n : N) (k : jsstring) (v : JsValue)
  (es : list (jsstring * JsValue)) :
  array_index k = Some n -> Forall (fun k' => key_before k' k) (map fst es) ->
  insert_index n k v es = es ++ [(k, v)].
Proof.
  intros Hk. induction es as [|[k' v'] es IH]; simpl; intros Hall; trivial.
  inversion Hall as [|? ? Hk' Hrest]; subst.
  unfold key_before in Hk'. rewrite Hk in Hk'.
  destruct (array_index k') as [n'|]; [|contradiction].
  destruct (N.ltb_spec n' n); [|lia].
  now rewrite IH.
Qed.

Lemma object_put_last (k : jsstring) (v : JsValue) (es : list (jsstring * JsValue)) :
  Forall (fun k' => key_before k' k) (map fst es) ->
  object_put k v es = es ++ [(k, v)].
Proof.
  intros Hall. unfold object_put.
  assert (Hhas : has_key k es = false).
  { apply has_key_false. intros Hin.
    rewrite Forall_forall in Hall. now apply (key_before_neq k k (Hall k Hin)). }
  rewrite Hhas.
  destruct (array_index k) as [n|] eqn:Hk; trivial.
  now apply insert_index_last.
Qed.

Lemma StronglySorted_app_inv {A} (R : A -> A -> Prop) (l : list A) (x : A) (r : list A) :
  StronglySorted R (l ++ x :: r) ->
  Forall (fun y => R y x) l /\ StronglySorted R (l ++ [x]).
Proof.
  induction l as [|y l IH]; simpl; intros H.
  - split; repeat constructor.
  - inversion H as [|? ? Hrest Hall]; subst.
    destruct (IH Hrest) as [Hl Hs].
    apply Forall_app in Hall. destruct Hall as [Hyl Hyx].
    inversion Hyx; subst.
    split; constructor; trivial.
    apply Forall_app. split; trivial. now repeat constructor.
Qed.

Lemma fold_put_ordered (pairs acc : list (jsstring * JsValue)) :
  own_order (acc ++ pairs) ->
  fold_left (fun o kv => object_put (fst kv) (snd kv) o) pairs acc = acc ++ pairs.
Proof.
  revert acc. induction pairs as [|[k v] pairs IH]; intros acc Hord.
  - now rewrite app_nil_r.
  - simpl.
    unfold own_order in Hord. rewrite map_app in Hord. simpl in Hord.
    destruct (StronglySorted_app_inv _ _ _ _ Hord) as [Hall _].
    rewrite object_put_last by trivial.
    rewrite IH; rewrite <- app_assoc; trivial.
    unfold own_order. now rewrite map_app.
Qed.

(** Entries already in own-property order are rebuilt as they are. *)
Lemma Object_fromEntries_ordered (es : list (jsstring * JsValue)) :
  own_order es -> Object_fromEntries es = es.
Proof. intros H. now apply (fold_put_ordered es []). Qed.

Lemma In_firstn {A} (x : A) (n : nat) (l : list A) : In x (firstn n l) -> In x l.
Proof.
  revert l. induction n as [|n IH]; intros [|y l]; simpl; try easy.
  intros [-> | H]; [now left | right; now apply IH].
Qed.

Lemma StronglySorted_firstn {A} (R : A -> A -> Prop) (n : nat) (l : list A) :
  StronglySorted R l -> StronglySorted R (firstn n l).
Proof.
  revert l. induction n as [|n IH]; intros [|x l] H; simpl; try constructor.
  - inversion H; subst. now apply IH.
  - inversion H as [|? ? _ Hall]; subst.
    rewrite Forall_forall in Hall |- *. intros y Hy.
    apply Hall. now apply (In_firstn y n l).
Qed.

Lemma own_order_firstn (n : nat) (es : list (jsstring * JsValue)) :
  own_order es -> own_order (firstn n es).
Proof.
  unfold own_order. intros H. rewrite <- firstn_map. now apply StronglySorted_firstn.
Qed.

Lemma JSON_parse_object_order (text : jsstring) (es : list (jsstring * JsValue)) :
  JSON_parse text = Some (JObject es) -> own_order es.
Proof.
  unfold JSON_parse. destruct (parse_syntax text) as [v|]; [|discriminate].
  simpl. intros H. inversion H as [Hv].
  destruct v; try discriminate.
  simpl in Hv. inversion Hv. apply Object_fromEntries_order.
Qed.

(** Where no key is an array index and no key is repeated, own-property
    order is insertion order. *)
Lemma Object_fromEntries_plain (pairs : list (jsstring * JsValue)) :
  NoDup (map fst pairs) ->
  Forall (fun k => array_index k = None) (map fst pairs) ->
  Object_fromEntries pairs = pairs.
Proof.
  intros Hnd Hplain. apply Object_fromEntries_ordered. unfold own_order.
  induction (map fst pairs) as [|k ks IH]; [constructor|].
  inversion Hnd; subst. inversion Hplain as [|? ? Hk Hks]; subst.
  constructor; [now apply IH|].
  rewrite Forall_forall in Hks |- *. intros x Hx.
  unfold key_before. rewrite Hk, (Hks x Hx). intros ->. contradiction.
Qed.

(** ** Reading and printing long arrays *)

Lemma lex_run_app (st : LexMode * list Token) (s t : jsstring) :
  lex_run st (s ++ t)
  = match lex_run st s with Some st' => lex_run st' t | None => None end.
Proof.
  revert st. induction s as [|c s IH]; intros st; simpl; trivial.
  destruct (lex_step st c); trivial.
Qed.

Lemma parse_run_app (st : ParseState) (ts us : list Token) :
  parse_run st (ts ++ us)
  = match parse_run st ts with Some st' => parse_run st' us | None => None end.
Proof.
  revert st. induction ts as [|t ts IH]; intros st; simpl; trivial.
  destruct (parse_step st t); trivial.
Qed.

Lemma lex_run_more_zeros (n : nat) (out : list Token) :
  lex_run (LNumber [48%N], out) (more_zeros n)
  = Some (LNumber [48%N], rev (zero_comma_tokens n) ++ out).
Proof.
  revert out. induction n as [|n IH]; intros out; trivial.
  change (more_zeros (S n)) with (lit ",0" ++ more_zeros n).
  change (zero_comma_tokens (S n))
    with ([TNumber (lit "0"); TComma] ++ zero_comma_tokens n).
  rewrite lex_run_app.
  change (lex_run (LNumber [48%N], out) (lit ",0"))
    with (Some (LNumber [48%N], TComma :: TNumber (lit "0") :: out)).
  cbv beta iota. rewrite IH, rev_app_distr, <- app_assoc. reflexivity.
Qed.

Lemma repeat_snoc {A} (x : A) (n : nat) (l : list A) :
  repeat x n ++ x :: l = x :: repeat x n ++ l.
Proof. induction n as [|n IH]; simpl; trivial. now rewrite IH. Qed.

Lemma rev_repeat {A} (x : A) (n : nat) : rev (repeat x n) = repeat x n.
Proof.
  induction n as [|n IH]; simpl; trivial.
  rewrite IH. pose proof (repeat_snoc x n []) as H. rewrite app_nil_r in H. exact H.
Qed.

Lemma parse_run_zero_commas (n : nat) (es : list JsValue) (ctx : list Frame) :
  parse_run (SValue (FArray es :: ctx)) (zero_comma_tokens n)
  = Some (SValue (FArray (repeat (JInt 0) n ++ es) :: ctx)).
Proof.
  revert es. induction n as [|n IH]; intros es; trivial.
  change (zero_comma_tokens (S n))
    with ([TNumber (lit "0"); TComma] ++ zero_comma_tokens n).
  rewrite parse_run_app.
  change (parse_run (SValue (FArray es :: ctx)) [TNumber (lit "0"); TComma])
    with (Some (SValue (FArray (JInt 0 :: es) :: ctx))).
  cbv beta iota. rewrite IH, repeat_snoc. reflexivity.
Qed.

(** Reading the text [framed n tail]: when [tail] closes the array of
    zeros and goes on as the tokens [ttoks], the array comes out whole. *)
Lemma parse_syntax_framed (n : nat) (tail : jsstring) (ttoks : list Token)
  (final : JsValue -> JsValue) :
  (forall out, lex_run (LNumber [48%N], out) tail
               = Some (LStart, rev (TNumber (lit "0") :: ttoks) ++ out)) ->
  (forall es, parse_run (SArrayAfter es [FObject [] (lit "data")]) ttoks
              = Some (SDone (final (JArray (rev es))))) ->
  parse_syntax (framed n tail) = Some (final (zero_array n)).
Proof.
  intros Hlex Hparse. unfold parse_syntax, lex, framed.
  change (lit "{" ++ [DQUOTE] ++ lit "data" ++ [DQUOTE] ++ lit ":[0" ++ more_zeros n ++ tail)
    with ((lit "{" ++ [DQUOTE] ++ lit "data" ++ [DQUOTE] ++ lit ":[0") ++ more_zeros n ++ tail).
  rewrite lex_run_app.
  change (lex_run (LStart, []) (lit "{" ++ [DQUOTE] ++ lit "data" ++ [DQUOTE] ++ lit ":[0"))
    with (Some (LNumber [48%N], [TLBracket; TColon; TString (lit "data"); TLBrace])).
  cbv beta iota. rewrite lex_run_app, lex_run_more_zeros. cbv beta iota. rewrite Hlex.
  unfold lex_finish.
  rewrite !rev_app_distr, !rev_involutive.
  change (rev [TLBracket; TColon; TString (lit "data"); TLBrace])
    with ([TLBrace; TString (lit "data"); TColon] ++ [TLBracket]).
  rewrite <- !app_assoc.
  rewrite parse_run_app.
  change (parse_run (SValue []) [TLBrace; TString (lit "data"); TColon])
    with (Some (SValue [FObject [] (lit "data")])).
  cbv beta iota.
  change (parse_run (SValue [FObject [] (lit "data")])
            ([TLBracket] ++ zero_comma_tokens n ++ TNumber (lit "0") :: ttoks))
    with (parse_run (SArrayFirst [FObject [] (lit "data")])
            (zero_comma_tokens n ++ TNumber (lit "0") :: ttoks)).
  assert (Hfirst : parse_run (SArrayFirst [FObject [] (lit "data")])
                     (zero_comma_tokens n ++ TNumber (lit "0") :: ttoks)
                   = parse_run (SValue [FArray []; FObject [] (lit "data")])
                       (zero_comma_tokens n ++ TNumber (lit "0") :: ttoks)).
  { destruct n; reflexivity. }
  rewrite Hfirst, parse_run_app, parse_run_zero_commas, app_nil_r. cbv beta iota.
  change (parse_run (SValue [FArray (repeat (JInt 0) n); FObject [] (lit "data")])
            (TNumber (lit "0") :: ttoks))
    with (parse_run (SArrayAfter (JInt 0 :: repeat (JInt 0) n) [FObject [] (lit "data")])
            ttoks).
  rewrite Hparse.
  change (JInt 0 :: repeat (JInt 0) n) with (repeat (JInt 0) (S n)).
  rewrite rev_repeat. reflexivity.
Qed.

Lemma create_properties_zero_array (n : nat) :
  create_properties (zero_array n) = zero_array n.
Proof.
  unfold zero_array. cbn [create_properties]. rewrite map_repeat. reflexivity.
Qed.

Lemma create_properties_object (members : list (jsstring * JsValue)) :
  create_properties (JObject members)
  = JObject (Object_fromEntries
               (map (fun kv => (fst kv, create_properties (snd kv))) members)).
Proof. reflexivity. Qed.

Lemma JSON_parse_data_response (n : nat) :
  JSON_parse (data_response n) = Some (JObject [(lit "data", zero_array n)]).
Proof.
  unfold JSON_parse, data_response.
  rewrite (parse_syntax_framed n (lit "]}") [TRBracket; TRBrace]
             (fun big => JObject [(lit "data", big)])).
  - cbn [option_map create_properties map fst snd].
    rewrite create_properties_zero_array. reflexivity.
  - intros out. reflexivity.
  - intros es. reflexivity.
Qed.

Lemma strlen_more_zeros (n : nat) : strlen (more_zeros n) = 2 * Z.of_nat n.
Proof.
  induction n as [|n IH]; trivial.
  change (more_zeros (S n)) with (lit ",0" ++ more_zeros n).
  rewrite strlen_app, IH. literal_lengths. lia.
Qed.

Lemma strlen_data_response (n : nat) : strlen (data_response n) = 2 * Z.of_nat n + 12.
Proof.
  unfold data_response, framed.
  rewrite !strlen_app, strlen_more_zeros.
  literal_lengths. lia.
Qed.

Lemma strlen_join_repeat (sep x : jsstring) (n : nat) :
  strlen (join sep (repeat x (S n))) = strlen x + Z.of_nat n * (strlen sep + strlen x).
Proof.
  induction n as [|n IH].
  - simpl. lia.
  - change (repeat x (S (S n))) with (x :: repeat x (S n)).
    change (join sep (x :: repeat x (S n))) with (x ++ sep ++ join sep (repeat x (S n))).
    rewrite !strlen_app, IH. lia.
Qed.

Lemma serialize_zero_array (h : Host) (indent : jsstring) (n : nat) :
  serialize h indent (zero_array n)
  = lit "[" ++ [NEWLINE] ++ (indent ++ gap)
    ++ join (lit "," ++ [NEWLINE] ++ (indent ++ gap)) (repeat (lit "0") (S n))
    ++ [NEWLINE] ++ indent ++ lit "]".
Proof.
  unfold zero_array.
  change (repeat (JInt 0) (S n)) with (JInt 0 :: repeat (JInt 0) n).
  cbn [serialize].
  change (JInt 0 :: repeat (JInt 0) n) with (repeat (JInt 0) (S n)).
  rewrite map_repeat. reflexivity.
Qed.

Lemma strlen_serialize_zero_array (h : Host) (indent : jsstring) (n : nat) :
  strlen (serialize h indent (zero_array n))
  = 2 * strlen indent + 7 + Z.of_nat n * (strlen indent + 5).
Proof.
  rewrite serialize_zero_array, !strlen_app, strlen_join_repeat, !strlen_app.
  literal_lengths. lia.
Qed.

Lemma strlen_join_member (sep x : jsstring) (l : list jsstring) :
  In x l -> strlen x <= strlen (join sep l).
Proof.
  induction l as [|y l IH]; [easy|].
  intros Hin.
  assert (Hj : strlen (join sep (y :: l)) >= strlen y
               /\ strlen (join sep (y :: l)) >= strlen (join sep l)).
  { destruct l as [|z l].
    - pose proof (strlen_nonneg y) as Hy.
      change (join sep [y]) with y. change (strlen (join sep [])) with 0. lia.
    - change (join sep (y :: z :: l)) with (y ++ sep ++ join sep (z :: l)).
      rewrite !strlen_app. nonneg_lengths. lia. }
  destruct Hin as [-> | Hin]; [lia|].
  specialize (IH Hin). lia.
Qed.

(** An object prints at least as long as any of its values. *)
Lemma strlen_serialize_member (h : Host) (indent k : jsstring) (v : JsValue)
  (es : list (jsstring * JsValue)) :
  In (k, v) es ->
  strlen (serialize h (indent ++ gap) v) <= strlen (serialize h indent (JObject es)).
Proof.
  intros Hin. destruct es as [|e es]; [easy|].
  cbn [serialize]. rewrite !strlen_app.
  set (sep := lit "," ++ [NEWLINE] ++ (indent ++ gap)).
  set (f := fun kv : jsstring * JsValue =>
              QuoteJSONString (fst kv) ++ lit ": " ++ serialize h (indent ++ gap) (snd kv)).
  assert (Hm : strlen (f (k, v)) <= strlen (join sep (map f (e :: es)))).
  { apply strlen_join_member. apply (in_map f _ _ Hin). }
  unfold f at 1 in Hm. cbn [fst snd] in Hm. rewrite !strlen_app in Hm.
  nonneg_lengths. lia.
Qed.

(** The print of an object with entries starts with its first key. *)
Lemma serialize_object_head (h : Host) (indent k : jsstring) (v : JsValue)
  (es : list (jsstring * JsValue)) :
  exists rest,
    serialize h indent (JObject ((k, v) :: es))
    = lit "{" ++ [NEWLINE] ++ (indent ++ gap) ++ QuoteJSONString k ++ rest.
Proof.
  cbn [serialize map fst snd].
  generalize (indent ++ gap). intros inner.
  destruct (map (fun kv : jsstring * JsValue =>
                   QuoteJSONString (fst kv) ++ lit ": " ++ serialize h inner (snd kv)) es)
    as [|x xs];
    cbn [join]; rewrite <- !app_assoc; eexists; reflexivity.
Qed.

Lemma strlen_stringify_data (h : Host) (n : nat) :
  strlen (JSON_stringify h (JObject [(lit "data", zero_array n)])) = 7 * Z.of_nat n + 25.
Proof.
  unfold JSON_stringify. cbn [serialize map join fst snd].
  rewrite !strlen_app, strlen_serialize_zero_array, !strlen_app.
  literal_lengths. lia.
Qed.

(** ** The structural stage *)

Lemma JSON_parse_late_index_response (n : nat) :
  JSON_parse (late_index_response n) = Some (JObject (late_index_entries n)).
Proof.
  unfold JSON_parse, late_index_response.
  rewrite (parse_syntax_framed n _
             (TRBracket
              :: flat_map (fun i => [TComma; TString (plain_key i); TColon; TNumber (lit "0")])
                          (seq 1 100)
              ++ [TComma; TString (lit "0"); TColon; TNumber (lit "0"); TRBrace])
             (fun big => JObject ((lit "data", big) :: plain_entries 100
                                  ++ [(lit "0", JInt 0)]))).
  - cbn [option_map]. rewrite create_properties_object.
    cbn [map fst snd]. rewrite create_properties_zero_array.
    unfold late_index_entries.
    generalize (zero_array n). intros big. vm_compute. reflexivity.
  - intros out. vm_compute. reflexivity.
  - intros es. vm_compute. reflexivity.
Qed.

Section StructuralStage.

Variable h : Host.
Variables (response : jsstring) (log : list jsstring).

Lemma final_text_kept (v : JsValue) :
  JSON_parse response = Some v ->
  strlen (JSON_stringify h v) <= 1000000 ->
  V120.final_text h response log = (inr (JSON_stringify h v), log).
Proof.
  intros Hparse Hsmall. unfold V120.final_text.
  rewrite Hparse, gtb_false by trivial. reflexivity.
Qed.

Lemma final_text_array (elements : list JsValue) :
  JSON_parse response = Some (JArray elements) ->
  strlen (JSON_stringify h (JArray elements)) > 1000000 ->
  V120.final_text h response log
  = (inr (JSON_stringify h (JArray (firstn 100 elements))), log).
Proof.
  intros Hparse Hbig. unfold V120.final_text.
  rewrite Hparse, gtb_true by lia. reflexivity.
Qed.

Lemma final_text_object (entries : list (jsstring * JsValue)) :
  JSON_parse response = Some (JObject entries) ->
  strlen (JSON_stringify h (JObject entries)) > 1000000 ->
  V120.final_text h response log
  = (inr (JSON_stringify h (JObject (firstn 100 entries))), log).
Proof.
  intros Hparse Hbig. unfold V120.final_text.
  rewrite Hparse, gtb_true by lia.
  unfold V120.truncate_structure, bind, ret.
  rewrite Object_fromEntries_ordered; [reflexivity|].
  apply own_order_firstn. now apply (JSON_parse_object_order response).
Qed.

End StructuralStage.

Lemma JSON_parse_members (response : jsstring) (entries : list (jsstring * JsValue)) :
  JSON_parse response = Some (JObject entries) ->
  exists members,
    parse_syntax response = Some (JObject members)
    /\ entries = Object_fromEntries
                   (map (fun kv => (fst kv, create_properties (snd kv))) members).
Proof.
  unfold JSON_parse. destruct (parse_syntax response) as [v|]; [|discriminate].
  simpl. intros H. inversion H as [Hv].
  destruct v; try discriminate.
  simpl in Hv. inversion Hv. eexists. split; reflexivity.
Qed.

Lemma handler_text (h : Host) (a : Args) (stdout stderr t : jsstring) (log : list jsstring) :
  call (run_curl h a) = (inr (stdout, stderr), log) ->
  V120.final_text h
    (fst (fst (byte_truncate stdout (default 800000 (max_response_size a))))) log
  = (inr t, log) ->
  call (V120.handleCurlRequest h a) = (inr {| text := t; isError := false |}, log).
Proof.
  intros Hrun Ht.
  destruct (v120_success h a stdout stderr log Hrun) as (t' & Ht' & Hcall).
  rewrite Ht in Ht'. inversion Ht'; subst. exact Hcall.
Qed.

(** What the handler returns for the response [{"data":[0,0,...,0]}],
    whether or not the structural stage runs. *)
Lemma data_response_result (h : Host) (a : Args) (n : nat) :
  URL_parses h (url a) = true ->
  spawn h (command a)
  = {| exit_code := 0; proc_stdout := data_response n; proc_stderr := [] |} ->
  2 * Z.of_nat n + 12 <= default 800000 (max_response_size a) ->
  3 * (2 * Z.of_nat n + 12) <= maxBuffer ->
  call (V120.handleCurlRequest h a)
  = (inr {| text := JSON_stringify h (JObject [(lit "data", zero_array n)]);
            isError := false |}, [command a]).
Proof.
  intros Hurl Hspawn Hlimit Hcap.
  assert (Hrun : call (run_curl h a) = (inr (data_response n, []), [command a])).
  { unfold call. rewrite run_curl_valid by trivial.
    rewrite execAsync_success; rewrite Hspawn; cbn [exit_code proc_stdout proc_stderr];
      trivial.
    - pose proof (utf8_length_bounds (data_response n)) as Hb.
      rewrite strlen_data_response in Hb. lia.
    - discriminate. }
  apply (handler_text h a (data_response n) [] _ _ Hrun).
  rewrite byte_truncate_above by (now rewrite strlen_data_response).
  cbn [fst].
  destruct (Z.le_gt_cases (strlen (JSON_stringify h (JObject [(lit "data", zero_array n)])))
              1000000) as [Hsmall | Hbig].
  - apply final_text_kept; trivial. apply JSON_parse_data_response.
  - rewrite (final_text_object h _ _ [(lit "data", zero_array n)]).
    + reflexivity.
    + apply JSON_parse_data_response.
    + lia.
Qed.

(** C4: the code at an input where it breaks the claim.  With every
    optional argument left out, so that [max_response_size] is 800000, a
    response [{"data":[0,0,...,0]}] with 200000 zeros is 400010 characters
    long and is not cut.  Its print is 1400018 characters long; the object
    has one entry, so the structural stage keeps all of it, and the handler
    returns the 1400018 characters. *)
Theorem C4_text_exceeds_ceiling :
  let n := Z.to_nat 199999 in
  let h := printing_host (data_response n) in
  let a := request (lit "http://example.com/") in
  strlen (data_response n) = 400010
  /\ exists t,
       call (V120.handleCurlRequest h a) = (inr {| text := t; isError := false |}, [command a])
       /\ t = JSON_stringify h (JObject [(lit "data", zero_array n)])
       /\ strlen t = 1400018.
Proof.
  intros n h a.
  assert (Hn : Z.of_nat n = 199999) by (apply Z2Nat.id; lia).
  clearbody n.
  split; [rewrite strlen_data_response; lia|].
  eexists. split; [|split; [reflexivity|]].
  - apply data_response_result; trivial.
    + change (default 800000 (max_response_size a)) with 800000. lia.
    + change maxBuffer with 10485760. lia.
  - rewrite strlen_stringify_data. lia.
Qed.

Lemma parse_syntax_late_index_response (n : nat) :
  parse_syntax (late_index_response n) = Some (JObject (late_index_members n)).
Proof.
  unfold late_index_response.
  rewrite (parse_syntax_framed n _
             (TRBracket
              :: flat_map (fun i => [TComma; TString (plain_key i); TColon; TNumber (lit "0")])
                          (seq 1 100)
              ++ [TComma; TString (lit "0"); TColon; TNumber (lit "0"); TRBrace])
             (fun big => JObject ((lit "data", big) :: plain_entries 100
                                  ++ [(lit "0", JInt 0)]))).
  - reflexivity.
  - intros out. vm_compute. reflexivity.
  - intros es. vm_compute. reflexivity.
Qed.

Lemma strlen_framed (n : nat) (tail : jsstring) :
  strlen (framed n tail) = 2 * Z.of_nat n + 10 + strlen tail.
Proof.
  unfold framed. rewrite !strlen_app, strlen_more_zeros.
  literal_lengths. lia.
Qed.

Lemma strlen_late_index_response (n : nat) :
  strlen (late_index_response n) = 2 * Z.of_nat n + 810.
Proof.
  unfold late_index_response. rewrite strlen_framed.
  replace (strlen (lit "]" ++ plain_members 100
                   ++ lit "," ++ [DQUOTE] ++ lit "0" ++ [DQUOTE] ++ lit ":0}"))
    with 800 by (vm_compute; reflexivity).
  lia.
Qed.

Lemma late_index_prints_long (h : Host) (n : nat) :
  7 * Z.of_nat n + 11 <= strlen (JSON_stringify h (JObject (late_index_entries n))).
Proof.
  pose proof (strlen_serialize_member h [] (lit "data") (zero_array n)
                (late_index_entries n)) as Hm.
  rewrite strlen_serialize_zero_array in Hm.
  change (strlen ([] ++ gap)) with 2 in Hm.
  unfold JSON_stringify. etransitivity; [|apply Hm].
  - lia.
  - right. left. reflexivity.
Qed.

Lemma late_index_response_result (h : Host) (a : Args) (n : nat) :
  URL_parses h (url a) = true ->
  spawn h (command a)
  = {| exit_code := 0; proc_stdout := late_index_response n; proc_stderr := [] |} ->
  2 * Z.of_nat n + 810 <= default 800000 (max_response_size a) ->
  3 * (2 * Z.of_nat n + 810) <= maxBuffer ->
  1000000 < 7 * Z.of_nat n + 11 ->
  call (run_curl h a) = (inr (late_index_response n, []), [command a])
  /\ byte_truncate (late_index_response n) (default 800000 (max_response_size a))
     = (late_index_response n, false, strlen (late_index_response n))
  /\ call (V120.handleCurlRequest h a)
     = (inr {| text := JSON_stringify h
                         (JObject ((lit "0", JInt 0) :: (lit "data", zero_array n)
                                   :: plain_entries 98));
               isError := false |}, [command a]).
Proof.
  intros Hurl Hspawn Hlimit Hcap Hbig.
  assert (Hrun : call (run_curl h a) = (inr (late_index_response n, []), [command a])).
  { unfold call. rewrite run_curl_valid by trivial.
    rewrite execAsync_success; rewrite Hspawn; cbn [exit_code proc_stdout proc_stderr];
      trivial.
    - pose proof (utf8_length_bounds (late_index_response n)) as Hb.
      rewrite strlen_late_index_response in Hb. lia.
    - discriminate. }
  assert (Hcut : byte_truncate (late_index_response n) (default 800000 (max_response_size a))
                 = (late_index_response n, false, strlen (late_index_response n))).
  { apply byte_truncate_above. now rewrite strlen_late_index_response. }
  repeat split; trivial.
  apply (handler_text h a (late_index_response n) [] _ _ Hrun).
  rewrite Hcut. cbn [fst].
  rewrite (final_text_object h _ _ (late_index_entries n)).
  - reflexivity.
  - apply JSON_parse_late_index_response.
  - pose proof (late_index_prints_long h n). lia.
Qed.

(** C5, as the claim states it, fails.  In the response below the member
    with key [0] is the last of 102 in the text, after [data] and [k1] to
    [k100].  The handler keeps it, first, together with [data] and [k1] to
    [k98]: the result is not the print of the first hundred members in the
    order of the text. *)
Lemma C5_array_index_key_is_kept :
  let n := Z.to_nat 199999 in
  let h := printing_host (late_index_response n) in
  let a := request (lit "http://example.com/") in
  parse_syntax (late_index_response n)
  = Some (JObject ((lit "data", zero_array n) :: plain_entries 100 ++ [(lit "0", JInt 0)]))
  /\ firstn 100 ((lit "data", zero_array n) :: plain_entries 100 ++ [(lit "0", JInt 0)])
     = (lit "data", zero_array n) :: plain_entries 99
  /\ strlen (late_index_response n) = 400808
  /\ call (V120.handleCurlRequest h a)
     = (inr {| text := JSON_stringify h
                         (JObject ((lit "0", JInt 0) :: (lit "data", zero_array n)
                                   :: plain_entries 98));
               isError := false |}, [command a])
  /\ JSON_stringify h (JObject ((lit "0", JInt 0) :: (lit "data", zero_array n)
                                :: plain_entries 98))
     <> JSON_stringify h (JObject ((lit "data", zero_array n) :: plain_entries 99)).
Proof.
  intros n h a.
  assert (Hn : Z.of_nat n = 199999) by (apply Z2Nat.id; lia).
  clearbody n.
  split; [apply parse_syntax_late_index_response|].
  split; [reflexivity|].
  split; [rewrite strlen_late_index_response; lia|].
  split.
  - apply late_index_response_result; trivial.
    + change (default 800000 (max_response_size a)) with 800000. lia.
    + change maxBuffer with 10485760. lia.
    + lia.
  - intros Heq.
    destruct (serialize_object_head h [] (lit "0") (JInt 0)
                ((lit "data", zero_array n) :: plain_entries 98)) as [r1 H1].
    destruct (serialize_object_head h [] (lit "data") (zero_array n)
                (plain_entries 99)) as [r2 H2].
    unfold JSON_stringify in Heq. rewrite H1, H2 in Heq.
    do 3 apply app_inv_head in Heq.
    discriminate Heq.
Qed.

(** C5, amended.  When the parsed response prints longer than 1000000: an
    array is cut to its first 100 elements; an object is cut to its first
    100 entries in own-property order, array indices in ascending order
    first and then the other keys in the order of the text, which is the
    order of the text when no key is an array index and none is repeated;
    the text of the result is the print of the reduced value, and the
    result holds no flag beside it. *)
Theorem C5_structural_truncation (h : Host) (a : Args) (stdout stderr : jsstring)
  (log : list jsstring) (v : JsValue)
  (Hrun : call (run_curl h a) = (inr (stdout, stderr), log))
  (Hparse : JSON_parse (fst (fst (byte_truncate stdout
                                    (default 800000 (max_response_size a))))) = Some v)
  (Hbig : strlen (JSON_stringify h v) > 1000000) :
  (forall elements, v = JArray elements ->
     call (V120.handleCurlRequest h a)
     = (inr {| text := JSON_stringify h (JArray (firstn 100 elements));
               isError := false |}, log)
     /\ length (firstn 100 elements) = Nat.min 100 (length elements))
  /\ (forall entries, v = JObject entries ->
        call (V120.handleCurlRequest h a)
        = (inr {| text := JSON_stringify h (JObject (firstn 100 entries));
                  isError := false |}, log)
        /\ own_order entries
        /\ exists members,
             parse_syntax (fst (fst (byte_truncate stdout
                                       (default 800000 (max_response_size a)))))
             = Some (JObject members)
             /\ entries = Object_fromEntries
                            (map (fun kv => (fst kv, create_properties (snd kv))) members)
             /\ (NoDup (map fst members) ->
                 Forall (fun k => array_index k = None) (map fst members) ->
                 entries = map (fun kv => (fst kv, create_properties (snd kv))) members)).
Proof.
  split.
  - intros elements ->. split; [|apply length_firstn].
    apply (handler_text h a stdout stderr _ _ Hrun).
    now apply final_text_array.
  - intros entries ->. split; [|split].
    + apply (handler_text h a stdout stderr _ _ Hrun).
      now apply final_text_object.
    + now apply (JSON_parse_object_order _ _ Hparse).
    + destruct (JSON_parse_members _ _ Hparse) as (members & Hsyntax & Hentries).
      exists members. repeat split; trivial.
      intros Hnodup Hplain. rewrite Hentries.
      apply Object_fromEntries_plain; rewrite map_map; cbn [fst]; trivial.
Qed.

(** The theorem at the response with 102 members, the last with key [0]. *)
Lemma C5_structural_truncation_witness :
  let n := Z.to_nat 199999 in
  let h := printing_host (late_index_response n) in
  let a := request (lit "http://example.com/") in
  call (run_curl h a) = (inr (late_index_response n, []), [command a])
  /\ JSON_parse (fst (fst (byte_truncate (late_index_response n)
                             (default 800000 (max_response_size a)))))
     = Some (JObject (late_index_entries n))
  /\ strlen (JSON_stringify h (JObject (late_index_entries n))) > 1000000
  /\ call (V120.handleCurlRequest h a)
     = (inr {| text := JSON_stringify h (JObject (firstn 100 (late_index_entries n)));
               isError := false |}, [command a]).
Proof.
  intros n h a.
  assert (Hn : Z.of_nat n = 199999) by (apply Z2Nat.id; lia).
  assert (Hlimit : 2 * Z.of_nat n + 810 <= default 800000 (max_response_size a))
    by (change (default 800000 (max_response_size a)) with 800000; lia).
  assert (Hcap : 3 * (2 * Z.of_nat n + 810) <= maxBuffer)
    by (change maxBuffer with 10485760; lia).
  assert (Hlong : 1000000 < 7 * Z.of_nat n + 11) by lia.
  destruct (late_index_response_result h a n eq_refl eq_refl Hlimit Hcap Hlong)
    as (Hrun & Hcut & _).
  assert (Hparse : JSON_parse (fst (fst (byte_truncate (late_index_response n)
                                          (default 800000 (max_response_size a)))))
                   = Some (JObject (late_index_entries n))).
  { rewrite Hcut. apply JSON_parse_late_index_response. }
  assert (Hbig : strlen (JSON_stringify h (JObject (late_index_entries n))) > 1000000).
  { pose proof (late_index_prints_long h n). lia. }
  split; [exact Hrun | split; [exact Hparse | split; [exact Hbig|]]].
  exact (proj1 (proj2 (C5_structural_truncation h a (late_index_response n) []
                         [command a] (JObject (late_index_entries n)) Hrun Hparse Hbig)
                  (late_index_entries n) eq_refl)).
Defined.


(** ** Every error becomes a result *)


Lemma download_returns (h : Host) (a : Download.Args) :
  (exists r log, call (Download.V120.handleCurlDownload h a) = (inr r, log))
  /\ (exists r log, call (Download.V110.handleCurlDownload h a) = (inr r, log)).
Proof.
  unfold call, Download.V120.handleCurlDownload, Download.V110.handleCurlDownload,
    try_catch, bind.
  destruct (Download.run_curl h a []) as [[e | out] log];
    split; eexists; eexists; reflexivity.
Qed.

Lemma listed_names (name : jsstring) :
  In name (map tool_name tools) <-> name = lit "curl_request" \/ name = lit "curl_download".
Proof.
  simpl. split.
  - intros [H | [H | []]]; [left | right]; now symmetry.
  - intros [-> | ->]; [left | right; left]; reflexivity.
Qed.

(** X1. A call of a tool that is listed returns a result in both revisions,
    whatever happens inside: every error of the handlers is caught and
    turned into a result.  A call of any other name throws
    [Unknown tool: <name>] and runs no command. *)
Theorem call_tool_throws_only_for_unlisted_names (h : Host) (name : jsstring)
  (args : ToolArguments) :
  (In name (map tool_name tools) ->
   (exists r log, call (call_tool_v120 h name args) = (inr r, log))
   /\ (exists r log, call (call_tool_v110 h name args) = (inr r, log)))
  /\ (~ In name (map tool_name tools) ->
      call (call_tool_v120 h name args) = (inl (Error (lit "Unknown tool: " ++ name)), [])
      /\ call (call_tool_v110 h name args) = (inl (Error (lit "Unknown tool: " ++ name)), [])).
Proof.
  unfold call_tool_v120, call_tool_v110, call_tool. split.
  - intros Hin. apply listed_names in Hin. destruct Hin as [-> | ->].
    + change (jsstring_eqb (lit "curl_request") (lit "curl_request")) with true.
      split; [apply request_returns_v120 | apply request_returns_v110].
    + change (jsstring_eqb (lit "curl_download") (lit "curl_request")) with false.
      change (jsstring_eqb (lit "curl_download") (lit "curl_download")) with true.
      apply download_returns.
  - intros Hnot.
    destruct (jsstring_eqb name (lit "curl_request")) eqn:E1.
    { apply jsstring_eqb_eq in E1. exfalso. apply Hnot, listed_names. now left. }
    destruct (jsstring_eqb name (lit "curl_download")) eqn:E2.
    { apply jsstring_eqb_eq in E2. exfalso. apply Hnot, listed_names. now right. }
    split; reflexivity.
Qed.

Lemma call_tool_throws_only_for_unlisted_names_witness :
  let h := printing_host (lit "ok") in
  let args := {| arg_url := lit "http://example.com/"; arg_method := None;
                 arg_headers := None; arg_data := None; arg_timeout := None;
                 arg_follow_redirects := None; arg_include_headers := None;
                 arg_user_agent := None; arg_max_response_size := None;
                 arg_output_path := lit "out.bin" |} in
  (In (lit "curl_download") (map tool_name tools)
   /\ exists r log, call (call_tool_v120 h (lit "curl_download") args) = (inr r, log))
  /\ (~ In (lit "curl_upload") (map tool_name tools)
      /\ call (call_tool_v120 h (lit "curl_upload") args)
         = (inl (Error (lit "Unknown tool: curl_upload")), [])).
Proof.
  intros h args.
  assert (Hin : In (lit "curl_download") (map tool_name tools)) by (right; left; reflexivity).
  assert (Hnot : ~ In (lit "curl_upload") (map tool_name tools)).
  { intros [H | [H | []]]; discriminate H. }
  split; (split; [assumption|]).
  - exact (proj1 (proj1 (call_tool_throws_only_for_unlisted_names h (lit "curl_download") args)
                    Hin)).
  - exact (proj1 (proj2 (call_tool_throws_only_for_unlisted_names h (lit "curl_upload") args)
                    Hnot)).
Defined.

(** ** Declared defaults *)

Lemma request_handlers_ext (h : Host) (a b : Args) :
  url a = url b -> curlCmd a = curlCmd b ->
  default 800000 (max_response_size a) = default 800000 (max_response_size b) ->
  V120.handleCurlRequest h a = V120.handleCurlRequest h b
  /\ V110.handleCurlRequest h a = V110.handleCurlRequest h b.
Proof.
  intros Hurl Hcmd Hmax.
  assert (Hc : command a = command b) by (unfold command; now rewrite Hcmd).
  unfold V120.handleCurlRequest, V110.handleCurlRequest,
    V110.result_object, V110.oversized_object, run_curl.
  rewrite Hurl, Hc, Hmax. split; reflexivity.
Qed.

Lemma download_handlers_ext (h : Host) (a b : Download.Args) :
  Download.url a = Download.url b -> Download.output_path a = Download.output_path b ->
  Download.curlCmd a = Download.curlCmd b ->
  Download.V120.handleCurlDownload h a = Download.V120.handleCurlDownload h b
  /\ Download.V110.handleCurlDownload h a = Download.V110.handleCurlDownload h b.
Proof.
  intros Hurl Hpath Hcmd.
  assert (Hc : Download.command a = Download.command b)
    by (unfold Download.command; now rewrite Hcmd).
  unfold Download.V120.handleCurlDownload, Download.V110.handleCurlDownload,
    Download.run_curl.
  rewrite Hurl, Hpath, Hc. split; reflexivity.
Qed.

Lemma declared_defaults_of_request :
  declared_default curl_request_schema (lit "method") = Some (JString (lit "GET"))
  /\ declared_default curl_request_schema (lit "data") = None
  /\ declared_default curl_request_schema (lit "timeout") = Some (JInt 30)
  /\ declared_default curl_request_schema (lit "follow_redirects") = Some (JBool true)
  /\ declared_default curl_request_schema (lit "include_headers") = Some (JBool false)
  /\ declared_default curl_request_schema (lit "user_agent")
     = Some (JString (lit "curl-mcp-server/1.1.0"))
  /\ declared_default curl_request_schema (lit "max_response_size") = Some (JInt 800000).
Proof. vm_compute. repeat split; reflexivity. Qed.

Lemma declared_defaults_of_download :
  declared_default curl_download_schema (lit "timeout") = Some (JInt 300)
  /\ declared_default curl_download_schema (lit "follow_redirects") = Some (JBool true).
Proof. vm_compute. repeat split; reflexivity. Qed.

(** X2. Replacing every absent argument by the default that the listing
    declares for it changes nothing: both handlers of both revisions apply
    the very defaults that the schemas advertise. *)
Theorem declared_defaults_are_the_applied_ones (h : Host) (x : ToolArguments) :
  (V120.handleCurlRequest h (request_arguments (with_declared_defaults curl_request_schema x))
   = V120.handleCurlRequest h (request_arguments x)
   /\ V110.handleCurlRequest h
        (request_arguments (with_declared_defaults curl_request_schema x))
      = V110.handleCurlRequest h (request_arguments x))
  /\ (Download.V120.handleCurlDownload h
        (download_arguments (with_declared_defaults curl_download_schema x))
      = Download.V120.handleCurlDownload h (download_arguments x)
      /\ Download.V110.handleCurlDownload h
           (download_arguments (with_declared_defaults curl_download_schema x))
         = Download.V110.handleCurlDownload h (download_arguments x)).
Proof.
  destruct declared_defaults_of_request as (Hm & Hd & Ht & Hf & Hi & Hu & Hx).
  destruct declared_defaults_of_download as (Ht' & Hf').
  destruct x as [u m hs d t f i ua mx o].
  split.
  - apply request_handlers_ext; unfold with_declared_defaults, request_arguments, curlCmd;
      cbn [arg_url arg_method arg_headers arg_data arg_timeout arg_follow_redirects
           arg_include_headers arg_user_agent arg_max_response_size arg_output_path
           url method headers data timeout follow_redirects include_headers user_agent
           max_response_size];
      rewrite ?Hm, ?Hd, ?Ht, ?Hf, ?Hi, ?Hu, ?Hx;
      destruct m, d, t, f, i, ua, mx; reflexivity.
  - apply download_handlers_ext;
      unfold with_declared_defaults, download_arguments, Download.curlCmd;
      cbn [arg_url arg_timeout arg_follow_redirects arg_output_path
           Download.url Download.output_path Download.timeout Download.follow_redirects];
      rewrite ?Ht', ?Hf'; destruct t, f; reflexivity.
Qed.


(** ** When a call is an error *)


Lemma execAsync_cases (h : Host) (c : jsstring) (cap : Z) (log : list jsstring) :
  if exec_ok (spawn h c) cap
  then execAsync h c cap log
       = (inr (proc_stdout (spawn h c), proc_stderr (spawn h c)), log ++ [c])
  else exists e, execAsync h c cap log = (inl e, log ++ [c])
                 /\ error_stderr e = Some (proc_stderr (spawn h c)).
Proof.
  unfold exec_ok, execAsync.
  destruct (Z.leb_spec (utf8_length (proc_stdout (spawn h c))) cap) as [Ho | Ho].
  - rewrite (gtb_false _ _ Ho).
    destruct (Z.leb_spec (utf8_length (proc_stderr (spawn h c))) cap) as [He | He].
    + rewrite (gtb_false _ _ He).
      destruct (exit_code (spawn h c) =? 0); [reflexivity|].
      eexists. split; reflexivity.
    + rewrite gtb_true by lia. eexists. split; reflexivity.
  - rewrite gtb_true by lia. eexists. split; reflexivity.
Qed.

Lemma v120_failure (h : Host) (a : Args) (e : JsError) (log : list jsstring) :
  call (run_curl h a) = (inl e, log) ->
  call (V120.handleCurlRequest h a)
  = (inr {| text := error_text h (message e) (error_stderr e); isError := true |}, log).
Proof.
  unfold call, V120.handleCurlRequest, try_catch, bind. intros ->. reflexivity.
Qed.

Lemma v110_outcome (h : Host) (a : Args) :
  match call (run_curl h a) with
  | (inl e, log) =>
      call (V110.handleCurlRequest h a)
      = (inr {| text := JSON_stringify h
                          (JObject [(lit "success", JBool false);
                                    (lit "error", JString (message e));
                                    (lit "stderr", or_null (error_stderr e))]);
                isError := true |}, log)
  | (inr out, log) =>
      exists t, call (V110.handleCurlRequest h a) = (inr {| text := t; isError := false |}, log)
  end.
Proof.
  unfold call, V110.handleCurlRequest, try_catch, bind.
  destruct (run_curl h a []) as [[e | out] log]; [reflexivity|].
  destruct (strlen _ >? 1000000); eexists; reflexivity.
Qed.

(** In the model, where printing a value never fails, the error flag of a
    request is settled by the URL and by [exec]. *)
Lemma request_error_flag (h : Host) (a : Args) :
  exists r120 r110,
    call (V120.handleCurlRequest h a)
    = (inr r120, if URL_parses h (url a) then [command a] else [])
    /\ call (V110.handleCurlRequest h a)
       = (inr r110, if URL_parses h (url a) then [command a] else [])
    /\ isError r120
       = negb (URL_parses h (url a) && exec_ok (spawn h (command a)) maxBuffer)
    /\ isError r110 = isError r120.
Proof.
  pose proof (v110_outcome h a) as H110. unfold call in H110.
  destruct (URL_parses h (url a)) eqn:Hurl.
  - rewrite run_curl_valid in H110 by trivial.
    pose proof (execAsync_cases h (command a) maxBuffer []) as Hexec.
    destruct (exec_ok (spawn h (command a)) maxBuffer).
    + rewrite Hexec in H110. destruct H110 as [t110 H110].
      destruct (v120_success h a (proc_stdout (spawn h (command a)))
                  (proc_stderr (spawn h (command a))) [command a]) as (t & _ & H120).
      { unfold call. now rewrite run_curl_valid. }
      exists {| text := t; isError := false |}, {| text := t110; isError := false |}.
      split; [exact H120 | split; [exact H110 | split; reflexivity]].
    + destruct Hexec as (e & Hexec & _). rewrite Hexec in H110.
      eexists; eexists. split.
      { apply v120_failure. unfold call. rewrite run_curl_valid by trivial. exact Hexec. }
      split; [exact H110 | split; reflexivity].
  - rewrite run_curl_invalid in H110 by trivial.
    eexists; eexists. split.
    { apply v120_failure. unfold call. now apply run_curl_invalid. }
    split; [exact H110 | split; reflexivity].
Qed.

(** X3. A [curl_request] result that is not an error comes from a
    command that was run and ended well: the URL parsed, curl exited with
    status 0, and neither of its streams held more than [maxBuffer] bytes.
    In both revisions the command is run once if the URL parses and not at
    all otherwise. *)
Theorem request_success_means_curl_succeeded (h : Host) (a : Args) :
  exists r120 r110,
    call (V120.handleCurlRequest h a)
    = (inr r120, if URL_parses h (url a) then [command a] else [])
    /\ call (V110.handleCurlRequest h a)
       = (inr r110, if URL_parses h (url a) then [command a] else [])
    /\ (isError r120 = false ->
        URL_parses h (url a) = true
        /\ exec_ok (spawn h (command a)) maxBuffer = true)
    /\ (isError r110 = false ->
        URL_parses h (url a) = true
        /\ exec_ok (spawn h (command a)) maxBuffer = true).
Proof.
  destruct (request_error_flag h a) as (r120 & r110 & H120 & H110 & Hflag & Hsame).
  exists r120, r110. split; [exact H120|]. split; [exact H110|].
  assert (H : isError r120 = false ->
              URL_parses h (url a) = true
              /\ exec_ok (spawn h (command a)) maxBuffer = true).
  { intros Hok. rewrite Hok in Hflag. symmetry in Hflag.
    apply negb_false_iff, andb_prop in Hflag. exact Hflag. }
  split; [exact H|]. intros Hok. apply H. now rewrite <- Hsame.
Qed.

Lemma request_success_means_curl_succeeded_witness :
  let h := printing_host (lit "ok") in
  let a := request (lit "http://example.com/") in
  exists r120,
    call (V120.handleCurlRequest h a) = (inr r120, [command a])
    /\ isError r120 = false
    /\ exec_ok (spawn h (command a)) maxBuffer = true.
Proof.
  intros h a.
  destruct (request_success_means_curl_succeeded h a)
    as (r120 & r110 & H120 & _ & Hok & _).
  exists r120. split; [exact H120|].
  assert (Hflag : isError r120 = false).
  { change (call (V120.handleCurlRequest h a)
            = (inr r120, [command a])) in H120.
    vm_compute in H120. injection H120 as <-. reflexivity. }
  split; [exact Hflag | exact (proj2 (Hok Hflag))].
Defined.

(** X4. When the URL parses and curl fails, that is exits with a status
    other than 0 with no more than [maxBuffer] bytes on either stream, the
    error result of
    both revisions reports [Command failed: ], the whole command line and
    what curl wrote on stderr, and carries that stderr text again (or
    [null] if it is empty); what curl wrote on stdout is dropped. *)
Theorem curl_failure_surfaces_stderr (h : Host) (a : Args)
  (Hurl : URL_parses h (url a) = true)
  (Hout : utf8_length (proc_stdout (spawn h (command a))) <= maxBuffer)
  (Herr : utf8_length (proc_stderr (spawn h (command a))) <= maxBuffer)
  (Hexit : exit_code (spawn h (command a)) <> 0) :
  let stderr := proc_stderr (spawn h (command a)) in
  call (V120.handleCurlRequest h a)
  = (inr {| text := JSON_stringify h
                      (JObject [(lit "error",
                                 JString (lit "Command failed: " ++ command a
                                          ++ [NEWLINE] ++ stderr));
                                (lit "stderr",
                                 match stderr with [] => JNull | _ => JString stderr end)]);
            isError := true |}, [command a])
  /\ call (V110.handleCurlRequest h a)
     = (inr {| text := JSON_stringify h
                         (JObject [(lit "success", JBool false);
                                   (lit "error",
                                    JString (lit "Command failed: " ++ command a
                                             ++ [NEWLINE] ++ stderr));
                                   (lit "stderr",
                                    match stderr with [] => JNull | _ => JString stderr end)]);
               isError := true |}, [command a]).
Proof.
  intros stderr.
  assert (Hrun : call (run_curl h a)
                 = (inl {| message := lit "Command failed: " ++ command a
                                      ++ [NEWLINE] ++ stderr;
                           error_stderr := Some stderr |}, [command a])).
  { unfold call. rewrite run_curl_valid by trivial. unfold execAsync.
    rewrite !gtb_false by trivial.
    apply Z.eqb_neq in Hexit. rewrite Hexit. reflexivity. }
  split.
  - rewrite (v120_failure h a _ _ Hrun). unfold error_text, or_null. cbn [message error_stderr].
    destruct stderr; reflexivity.
  - pose proof (v110_outcome h a) as H110. rewrite Hrun in H110. rewrite H110.
    unfold or_null. cbn [message error_stderr]. destruct stderr; reflexivity.
Qed.


Lemma curl_failure_surfaces_stderr_witness :
  let h := failing_host (lit "partial") (lit "curl: (6) Could not resolve host") 6 in
  let a := request (lit "http://nowhere.invalid/") in
  call (V120.handleCurlRequest h a)
  = (inr {| text := error_text h
                      (lit "Command failed: " ++ command a ++ [NEWLINE]
                       ++ lit "curl: (6) Could not resolve host")
                      (Some (lit "curl: (6) Could not resolve host"));
            isError := true |}, [command a]).
Proof.
  intros h a.
  refine (proj1 (curl_failure_surfaces_stderr h a eq_refl _ _ _)).
  - vm_compute. discriminate.
  - vm_compute. discriminate.
  - discriminate.
Defined.


(** ** Decimal numerals *)

Lemma length_lit (s : string) : length (lit s) = String.length s.
Proof.
  unfold lit. rewrite length_map.
  induction s as [|c s IH]; simpl; [reflexivity | now rewrite IH].
Qed.

Lemma length_string_of_uint (d : Decimal.uint) :
  String.length (NilEmpty.string_of_uint d) = Decimal.nb_digits d.
Proof. induction d; simpl; now rewrite ?IHd. Qed.

Lemma nb_digits_double (d : Decimal.uint) :
  (Decimal.nb_digits (Decimal.Little.double d) <= S (Decimal.nb_digits d))%nat
  /\ (Decimal.nb_digits (Decimal.Little.succ_double d) <= S (Decimal.nb_digits d))%nat.
Proof. induction d; simpl; lia. Qed.

Lemma nb_digits_to_little_uint (p : positive) :
  (1 <= Decimal.nb_digits (Pos.to_little_uint p) <= Pos.size_nat p)%nat.
Proof.
  induction p as [p IH | p IH |]; simpl.
  - pose proof (proj2 (nb_digits_double (Pos.to_little_uint p))).
    destruct (Pos.to_little_uint p); simpl in *; lia.
  - pose proof (proj1 (nb_digits_double (Pos.to_little_uint p))).
    destruct (Pos.to_little_uint p); simpl in *; lia.
  - lia.
Qed.

Lemma string_of_positive (p : positive) :
  NilZero.string_of_int (Z.to_int (Z.pos p)) = NilEmpty.string_of_uint (Pos.to_uint p)
  /\ NilZero.string_of_int (Z.to_int (Z.neg p))
     = String "-" (NilEmpty.string_of_uint (Pos.to_uint p)).
Proof.
  assert (H : Pos.to_uint p <> Decimal.Nil).
  { intros H. apply (f_equal Decimal.nb_digits) in H.
    unfold Pos.to_uint in H. rewrite DecimalFacts.nb_digits_rev in H.
    pose proof (nb_digits_to_little_uint p). simpl in H. lia. }
  simpl. unfold NilZero.string_of_uint.
  destruct (Pos.to_uint p); try contradiction; split; reflexivity.
Qed.

(** The numeral of an integer between 0 and [q] has at most as many
    characters as [q] has bits. *)
Lemma strlen_numeral (n : Z) (q : positive) :
  0 <= n <= Z.pos q ->
  1 <= strlen (numeral n) <= Z.of_nat (Pos.size_nat q).
Proof.
  intros Hn. unfold strlen, numeral. rewrite length_lit.
  assert (Hq : (1 <= Pos.size_nat q)%nat) by (destruct q; simpl; lia).
  destruct n as [|p|p]; [simpl; lia | | lia].
  rewrite (proj1 (string_of_positive p)), length_string_of_uint.
  unfold Pos.to_uint. rewrite DecimalFacts.nb_digits_rev.
  pose proof (nb_digits_to_little_uint p) as Hp.
  assert (Hle : (Pos.size_nat p <= Pos.size_nat q)%nat).
  { destruct (Pos.eq_dec p q) as [-> | Hne]; [lia|].
    apply Pos.size_nat_monotone. lia. }
  lia.
Qed.

(** Up to 2^53 a number is printed as its numeral. *)
Lemma Number_toString_safe (n : Z) :
  0 <= n <= 9007199254740992 -> Number_toString n = numeral n.
Proof.
  intros Hn. unfold Number_toString, Number_toString_positive.
  change (2 ^ 53) with 9007199254740992.
  destruct (Z.ltb_spec n 0); [lia|].
  destruct (Z.leb_spec n 9007199254740992); [reflexivity | lia].
Qed.

Lemma strlen_Number_toString (n : Z) (q : positive) :
  0 <= n <= Z.pos q -> Z.pos q <= 9007199254740992 ->
  1 <= strlen (Number_toString n) <= Z.of_nat (Pos.size_nat q).
Proof.
  intros Hn Hq. rewrite Number_toString_safe by lia. now apply strlen_numeral.
Qed.

(** ** The length of quoted strings *)

Lemma strlen_escape_unit (c : code_unit) : 1 <= strlen (escape_unit c) <= 6.
Proof.
  unfold escape_unit, unicode_escape.
  repeat match goal with |- context [if ?b then _ else _] => destruct b end;
    unfold strlen; simpl; lia.
Qed.

Lemma strlen_quote_units_upto (n : nat) (s : jsstring) :
  (length s <= n)%nat -> strlen (quote_units s) <= 6 * strlen s.
Proof.
  revert s. induction n as [|n IH]; intros s Hlen.
  - destruct s; [unfold strlen; simpl; lia | simpl in Hlen; lia].
  - destruct s as [|c rest]; [unfold strlen; simpl; lia|].
    simpl in Hlen.
    assert (Hrest : strlen (quote_units rest) <= 6 * strlen rest) by (apply IH; lia).
    assert (Hc : strlen (c :: rest) = 1 + strlen rest) by (unfold strlen; simpl length; lia).
    pose proof (strlen_escape_unit c) as Hesc.
    cbn [quote_units].
    destruct (is_high_surrogate c).
    + destruct rest as [|d rest'].
      * unfold strlen; simpl; lia.
      * destruct (is_low_surrogate d).
        -- assert (Hrest' : strlen (quote_units rest') <= 6 * strlen rest')
             by (apply IH; simpl in Hlen; lia).
           unfold strlen in *. simpl length in *. lia.
        -- rewrite strlen_app. change (strlen (unicode_escape c)) with 6. lia.
    + destruct (is_low_surrogate c).
      * rewrite strlen_app. change (strlen (unicode_escape c)) with 6. lia.
      * rewrite strlen_app. lia.
Qed.

Lemma strlen_QuoteJSONString (s : jsstring) :
  strlen (QuoteJSONString s) <= 6 * strlen s + 2.
Proof.
  unfold QuoteJSONString. rewrite !strlen_app.
  pose proof (strlen_quote_units_upto (length s) s (le_n _)).
  literal_lengths. lia.
Qed.

(** ** The size of the results of version 1.1.0 *)

Lemma strlen_substring_prefix (s : jsstring) (m : Z) :
  0 <= m -> strlen (substring s 0 m) <= m.
Proof. intros Hm. rewrite substring_prefix, strlen_firstn by trivial. lia. Qed.

Lemma strlen_oversized_object (h : Host) (a : Args) (stdout : jsstring) :
  strlen stdout <= maxBuffer ->
  strlen (JSON_stringify h (JObject (V110.oversized_object a stdout))) <= 1000000.
Proof.
  intros Hcap. unfold V110.oversized_object.
  destruct (byte_truncate stdout (default 800000 (max_response_size a)))
    as [[response truncated] originalSize] eqn:Hcut.
  assert (HoS : originalSize = strlen stdout).
  { unfold byte_truncate in Hcut. destruct (strlen stdout >? _); now inversion Hcut. }
  subst originalSize.
  pose proof (strlen_nonneg stdout) as Hnn.
  pose proof (strlen_Number_toString (strlen stdout) 10485760 (conj Hnn Hcap)
                ltac:(lia)) as Hdigits.
  change (Z.of_nat (Pos.size_nat 10485760)) with 24 in Hdigits.
  pose proof (strlen_QuoteJSONString (substring response 0 50000)) as Hquote.
  pose proof (strlen_substring_prefix response 50000 ltac:(lia)) as Hsample.
  pose proof (strlen_nonneg (substring response 0 50000)).
  unfold JSON_stringify. cbn [serialize map join fst snd].
  rewrite !strlen_app. literal_lengths. lia.
Qed.

(** X5. Every result of version 1.1.0 that is not an error has a text of
    at most 1000000 code units: the [result] object is returned only if it
    prints that short, and the sample object that replaces it holds at most
    50000 code units of the response. *)
Theorem v110_success_text_is_bounded (h : Host) (a : Args) (r : ToolResult)
  (log : list jsstring)
  (Hcall : call (V110.handleCurlRequest h a) = (inr r, log))
  (Hok : isError r = false) :
  strlen (text r) <= 1000000.
Proof.
  unfold call, V110.handleCurlRequest, try_catch, bind in Hcall.
  destruct (run_curl h a []) as [[e | [stdout stderr]] log'] eqn:Hrun.
  - inversion Hcall; subst. discriminate Hok.
  - apply run_curl_resolved in Hrun. destruct Hrun as (_ & _ & _ & Hcap & _).
    cbn [fst snd] in Hcall.
    destruct (strlen (JSON_stringify h (JObject (V110.result_object a stdout stderr)))
              >? 1000000) eqn:Hbig; inversion Hcall; subst; cbn [text].
    + now apply strlen_oversized_object.
    + now apply gtb_false_inv.
Qed.

Lemma v110_success_text_is_bounded_witness :
  let h := printing_host (lit "hello world") in
  let a := with_max_response_size 5 (request (lit "http://example.com/")) in
  exists r, call (V110.handleCurlRequest h a) = (inr r, [command a])
            /\ isError r = false /\ strlen (text r) <= 1000000.
Proof.
  intros h a. eexists. split; [reflexivity|]. split; [reflexivity|].
  exact (v110_success_text_is_bounded h a _ [command a] eq_refl eq_refl).
Defined.

(** ** Downloads *)

Lemma download_run_cases (h : Host) (a : Download.Args) :
  if URL_parses h (Download.url a)
  then Download.run_curl h a [] = execAsync h (Download.command a) default_maxBuffer []
  else Download.run_curl h a []
       = (inl (Error (lit "Invalid URL: " ++ Download.url a)), []).
Proof. unfold Download.run_curl, bind. destruct (URL_parses h (Download.url a)); reflexivity. Qed.

(** X6. A [curl_download] call is reported as a success exactly when the
    URL parses, curl exits with status 0 and neither of its output streams
    holds more bytes than the default buffer of [exec]; the two revisions
    agree on it.  The command is run once if the URL parses and not at all
    otherwise, in which case the error is [Invalid URL: <url>].  The success
    text of version 1.2.0 holds the output path and a fixed message, and
    nothing of what curl wrote. *)
Theorem download_outcome (h : Host) (a : Download.Args) :
  exists r120 r110,
    call (Download.V120.handleCurlDownload h a)
    = (inr r120, if URL_parses h (Download.url a) then [Download.command a] else [])
    /\ call (Download.V110.handleCurlDownload h a)
       = (inr r110, if URL_parses h (Download.url a) then [Download.command a] else [])
    /\ isError r120
       = negb (URL_parses h (Download.url a)
               && exec_ok (spawn h (Download.command a)) default_maxBuffer)
    /\ isError r110 = isError r120
    /\ (isError r120 = false ->
        text r120
        = JSON_stringify h
            (JObject [(lit "success", JBool true);
                      (lit "output_path", JString (Download.output_path a));
                      (lit "message", JString (lit "File downloaded successfully"))]))
    /\ (URL_parses h (Download.url a) = false ->
        text r120 = download_error_text h (lit "Invalid URL: " ++ Download.url a)).
Proof.
  pose proof (download_run_cases h a) as Hrun.
  unfold call, Download.V120.handleCurlDownload, Download.V110.handleCurlDownload,
    try_catch, bind.
  destruct (URL_parses h (Download.url a)).
  - rewrite Hrun.
    pose proof (execAsync_cases h (Download.command a) default_maxBuffer []) as Hexec.
    destruct (exec_ok (spawn h (Download.command a)) default_maxBuffer).
    + rewrite Hexec. eexists; eexists.
      split; [reflexivity|]. split; [reflexivity|]. split; [reflexivity|].
      split; [reflexivity|]. split; [intros _; reflexivity | discriminate].
    + destruct Hexec as (e & -> & _). eexists; eexists.
      split; [reflexivity|]. split; [reflexivity|]. split; [reflexivity|].
      split; [reflexivity|]. split; discriminate.
  - rewrite Hrun. eexists; eexists.
    split; [reflexivity|]. split; [reflexivity|]. split; [reflexivity|].
    split; [reflexivity|]. split; [discriminate | intros _; reflexivity].
Qed.

Lemma download_outcome_witness :
  let h := printing_host [] in
  let a := download (lit "http://example.com/f.zip") (lit "/tmp/f.zip") in
  exists r120,
    call (Download.V120.handleCurlDownload h a) = (inr r120, [Download.command a])
    /\ text r120
       = JSON_stringify h
           (JObject [(lit "success", JBool true);
                     (lit "output_path", JString (lit "/tmp/f.zip"));
                     (lit "message", JString (lit "File downloaded successfully"))]).
Proof.
  intros h a.
  destruct (download_outcome h a) as (r120 & r110 & H120 & _ & Herr & _ & Htext & _).
  exists r120. split; [exact H120 | exact (Htext Herr)].
Defined.

(** ** What the request handler returns as text *)

Lemma JSON_parse_nil : JSON_parse [] = None.
Proof. reflexivity. Qed.

Lemma final_text_plain (h : Host) (response : jsstring) (log : list jsstring) :
  JSON_parse response = None -> V120.final_text h response log = (inr response, log).
Proof. intros H. unfold V120.final_text. now rewrite H. Qed.


(** X7. An output that is not JSON is returned as it is, cut to its first
    [max_response_size] code units if it is longer: the text of the result
    is a prefix of what curl printed and is never longer than the limit. *)
Theorem plain_text_is_passed_through (h : Host) (a : Args) (stdout stderr : jsstring)
  (log : list jsstring)
  (Hrun : call (run_curl h a) = (inr (stdout, stderr), log))
  (Hlimit : 0 <= default 800000 (max_response_size a))
  (Hplain : JSON_parse (firstn (Z.to_nat (default 800000 (max_response_size a))) stdout)
            = None) :
  let m := default 800000 (max_response_size a) in
  call (V120.handleCurlRequest h a)
  = (inr {| text := firstn (Z.to_nat m) stdout; isError := false |}, log)
  /\ strlen (firstn (Z.to_nat m) stdout) <= m
  /\ (strlen stdout <= m -> firstn (Z.to_nat m) stdout = stdout).
Proof.
  intros m.
  assert (Hcut : fst (fst (byte_truncate stdout m)) = firstn (Z.to_nat m) stdout).
  { unfold byte_truncate. destruct (strlen stdout >? m) eqn:Hcmp; cbn [fst].
    - now apply substring_prefix.
    - apply gtb_false_inv in Hcmp. symmetry. apply firstn_all2. unfold strlen in Hcmp. lia. }
  split; [|split].
  - apply (handler_text h a stdout stderr _ _ Hrun). fold m. rewrite Hcut.
    now apply final_text_plain.
  - rewrite strlen_firstn by trivial. lia.
  - intros Hle. apply firstn_all2. unfold strlen in Hle. lia.
Qed.

Lemma plain_text_is_passed_through_witness :
  let h := printing_host (lit "<html>ok</html>") in
  let a := with_max_response_size 6 (request (lit "http://example.com/")) in
  call (V120.handleCurlRequest h a)
  = (inr {| text := lit "<html>"; isError := false |}, [command a]).
Proof.
  intros h a.
  exact (proj1 (plain_text_is_passed_through h a (lit "<html>ok</html>") [] [command a]
                  eq_refl ltac:(discriminate) eq_refl)).
Defined.

(** X8. With a [max_response_size] of zero or less, the text of every
    result that is not an error is empty, whatever curl printed. *)
Theorem nonpositive_limit_empties_the_text (h : Host) (a : Args) (stdout stderr : jsstring)
  (log : list jsstring)
  (Hrun : call (run_curl h a) = (inr (stdout, stderr), log))
  (Hlimit : default 800000 (max_response_size a) <= 0) :
  call (V120.handleCurlRequest h a) = (inr {| text := []; isError := false |}, log).
Proof.
  apply (handler_text h a stdout stderr _ _ Hrun).
  assert (Hcut : fst (fst (byte_truncate stdout (default 800000 (max_response_size a)))) = []).
  { unfold byte_truncate.
    destruct (strlen stdout >? default 800000 (max_response_size a)) eqn:Hcmp; cbn [fst].
    - unfold substring.
      replace (Z.max _ _ - Z.min _ _) with 0 by (pose proof (strlen_nonneg stdout); lia).
      reflexivity.
    - apply gtb_false_inv in Hcmp. pose proof (strlen_nonneg stdout).
      destruct stdout; [reflexivity|]. unfold strlen in *. simpl length in *. lia. }
  rewrite Hcut. apply final_text_plain, JSON_parse_nil.
Qed.

Lemma nonpositive_limit_empties_the_text_witness :
  let h := printing_host (lit "[1,2,3]") in
  let a := with_max_response_size 0 (request (lit "http://example.com/")) in
  call (V120.handleCurlRequest h a) = (inr {| text := []; isError := false |}, [command a]).
Proof.
  intros h a.
  exact (nonpositive_limit_empties_the_text h a (lit "[1,2,3]") [] [command a]
           eq_refl ltac:(discriminate)).
Defined.

Lemma final_text_scalar (h : Host) (response : jsstring) (log : list jsstring) (v : JsValue) :
  JSON_parse response = Some v -> is_container v = false ->
  V120.final_text h response log = (inr (JSON_stringify h v), log).
Proof.
  intros Hparse Hscalar. unfold V120.final_text. rewrite Hparse. unfold bind.
  destruct (strlen (JSON_stringify h v) >? 1000000) eqn:Hbig; [|reflexivity].
  destruct v; try discriminate Hscalar; try reflexivity.
  discriminate Hbig.
Qed.

(** X9. A response that is JSON but neither an array nor an object (a
    string, a number, [true], [false], [null]) is never cut by the
    structural stage: its print is returned whole, however long it is. *)
Theorem scalars_are_never_cut (h : Host) (a : Args) (stdout stderr : jsstring)
  (log : list jsstring) (v : JsValue)
  (Hrun : call (run_curl h a) = (inr (stdout, stderr), log))
  (Hparse : JSON_parse (fst (fst (byte_truncate stdout
                                    (default 800000 (max_response_size a))))) = Some v)
  (Hscalar : is_container v = false) :
  call (V120.handleCurlRequest h a)
  = (inr {| text := JSON_stringify h v; isError := false |}, log).
Proof.
  apply (handler_text h a stdout stderr _ _ Hrun).
  now apply final_text_scalar.
Qed.

Lemma lex_run_letters (n : nat) (acc : jsstring) (out : list Token) (rest : jsstring) :
  lex_run (LStr acc, out) (repeat 97%N n ++ rest)
  = lex_run (LStr (repeat 97%N n ++ acc), out) rest.
Proof.
  revert acc. induction n as [|n IH]; intros acc; [reflexivity|].
  change (repeat 97%N (S n) ++ rest) with (97%N :: (repeat 97%N n ++ rest)).
  cbn [lex_run lex_step].
  change (N.eqb 97%N DQUOTE) with false. change (N.eqb 97%N BACKSLASH) with false.
  change (97 <? 32)%N with false. cbv iota.
  rewrite IH. now rewrite repeat_snoc.
Qed.

Lemma JSON_parse_letters (n : nat) :
  JSON_parse (letters_response n) = Some (JString (repeat 97%N n)).
Proof.
  unfold JSON_parse, parse_syntax, lex, letters_response.
  change ([DQUOTE] ++ repeat 97%N n ++ [DQUOTE])
    with (DQUOTE :: (repeat 97%N n ++ [DQUOTE])).
  cbn [lex_run lex_step lex_start].
  change (is_ws DQUOTE) with false.
  change (lex_start [] DQUOTE) with (Some (LStr [], @nil Token)).
  cbv iota. rewrite lex_run_letters, app_nil_r.
  cbn [lex_run lex_step]. change (N.eqb DQUOTE DQUOTE) with true. cbv iota.
  cbn [lex_finish rev app parse_run parse_step parse_value deliver option_map
       create_properties].
  now rewrite rev_repeat.
Qed.

Lemma quote_units_letters (n : nat) : quote_units (repeat 97%N n) = repeat 97%N n.
Proof.
  induction n as [|n IH]; [reflexivity|].
  change (repeat 97%N (S n)) with (97%N :: repeat 97%N n).
  cbn [quote_units].
  change (is_high_surrogate 97%N) with false. change (is_low_surrogate 97%N) with false.
  change (escape_unit 97%N) with [97%N]. cbv iota. now rewrite IH.
Qed.

Lemma strlen_repeat (c : code_unit) (n : nat) : strlen (repeat c n) = Z.of_nat n.
Proof. unfold strlen. now rewrite repeat_length. Qed.

Lemma scalars_are_never_cut_witness :
  let n := Z.to_nat 1500000 in
  let h := printing_host (letters_response n) in
  let a := with_max_response_size 2000000 (request (lit "http://example.com/")) in
  call (V120.handleCurlRequest h a)
  = (inr {| text := JSON_stringify h (JString (repeat 97%N n)); isError := false |},
     [command a])
  /\ strlen (JSON_stringify h (JString (repeat 97%N n))) = 1500002.
Proof.
  intros n h a.
  assert (Hn : Z.of_nat n = 1500000) by (apply Z2Nat.id; lia).
  assert (Hlen : strlen (letters_response n) = 1500002).
  { unfold letters_response. rewrite !strlen_app, strlen_repeat. literal_lengths. lia. }
  assert (Hrun : call (run_curl h a) = (inr (letters_response n, []), [command a])).
  { unfold call. rewrite run_curl_valid by reflexivity.
    rewrite execAsync_success.
    - reflexivity.
    - reflexivity.
    - change (proc_stdout (spawn h (command a))) with (letters_response n).
      pose proof (utf8_length_bounds (letters_response n)) as Hb.
      rewrite Hlen in Hb. change maxBuffer with 10485760. lia.
    - change (utf8_length (proc_stderr (spawn h (command a)))) with 0. discriminate. }
  assert (Hcut : byte_truncate (letters_response n) (default 800000 (max_response_size a))
                 = (letters_response n, false, strlen (letters_response n))).
  { apply byte_truncate_above. rewrite Hlen.
    change (default 800000 (max_response_size a)) with 2000000. lia. }
  assert (Hparse : JSON_parse (fst (fst (byte_truncate (letters_response n)
                                          (default 800000 (max_response_size a)))))
                   = Some (JString (repeat 97%N n))).
  { rewrite Hcut. apply JSON_parse_letters. }
  split.
  - exact (scalars_are_never_cut h a (letters_response n) [] [command a]
             (JString (repeat 97%N n)) Hrun Hparse eq_refl).
  - unfold JSON_stringify. cbn [serialize]. unfold QuoteJSONString.
    rewrite quote_units_letters, !strlen_app, strlen_repeat. literal_lengths. lia.
Defined.

(** ** Reading the command line of a request whose values need no escaping *)

Lemma default_option_map_rev (o : option jsstring) :
  default [] (option_map (@rev code_unit) o) = rev (default [] o).
Proof. now destruct o. Qed.

Lemma sh_push_at (c : code_unit) (m : ShMode) (ws : list jsstring) (o : option jsstring) :
  sh_push c (sh_at m ws o) = sh_at m ws (Some (default [] o ++ [c])).
Proof.
  unfold sh_push, sh_at. cbn [sh_done sh_words sh_word sh_mode option_map].
  now rewrite default_option_map_rev, rev_unit.
Qed.

Lemma sh_set_mode_at (m' m : ShMode) (ws : list jsstring) (o : option jsstring) :
  sh_set_mode m' (sh_at m ws o) = sh_at m' ws (Some (default [] o)).
Proof.
  unfold sh_set_mode, sh_at. cbn [sh_done sh_words sh_word sh_mode option_map].
  now rewrite default_option_map_rev.
Qed.

Lemma sh_end_word_at (m : ShMode) (ws : list jsstring) (w : jsstring) :
  sh_end_word (sh_at m ws (Some w)) = sh_at m (ws ++ [w]) None.
Proof.
  unfold sh_end_word, sh_at. cbn [sh_done sh_words sh_word sh_mode option_map].
  now rewrite rev_involutive, rev_unit.
Qed.

Lemma sh_plain_unit_step (c : code_unit) (ws : list jsstring) (o : option jsstring) :
  sh_plain_unit c = true ->
  sh_step (sh_at ShPlain ws o) c = Some (sh_at ShPlain ws (Some (default [] o ++ [c]))).
Proof.
  intros Hc. unfold sh_step. cbn [sh_at sh_mode sh_escape]. fold (sh_at ShPlain ws o).
  assert (Hne : forall k, sh_plain_unit k = false -> N.eqb c k = false).
  { intros k Hk. destruct (N.eqb_spec c k) as [-> | _]; [congruence | reflexivity]. }
  rewrite !Hne by reflexivity. cbn [orb]. rewrite Hc. now rewrite sh_push_at.
Qed.

Lemma sh_run_plain (s rest : jsstring) (ws : list jsstring) (w : jsstring) :
  forallb sh_plain_unit s = true ->
  sh_run (sh_at ShPlain ws (Some w)) (s ++ rest)
  = sh_run (sh_at ShPlain ws (Some (w ++ s))) rest.
Proof.
  revert w. induction s as [|c s IH]; intros w Hs.
  - now rewrite app_nil_r.
  - cbn [forallb] in Hs. apply andb_prop in Hs as [Hc Hs].
    cbn [app sh_run]. rewrite sh_plain_unit_step by exact Hc. cbn [default].
    rewrite IH by exact Hs. now rewrite <- app_assoc.
Qed.

Lemma sh_run_bare (s rest : jsstring) (ws : list jsstring) :
  bare_word s = true ->
  sh_run (sh_at ShPlain ws None) (s ++ rest) = sh_run (sh_at ShPlain ws (Some s)) rest.
Proof.
  unfold bare_word. destruct s as [|c s]; [discriminate|]. cbn [is_nil negb andb forallb].
  intros Hs. apply andb_prop in Hs as [Hc Hs].
  cbn [app sh_run]. rewrite sh_plain_unit_step by exact Hc. cbn [default app].
  now rewrite sh_run_plain.
Qed.

Lemma sh_run_double (s rest : jsstring) (ws : list jsstring) (w : jsstring) :
  dq_safe s = true ->
  sh_run (sh_at ShDouble ws (Some w)) (s ++ DQUOTE :: rest)
  = sh_run (sh_at ShPlain ws (Some (w ++ s))) rest.
Proof.
  unfold dq_safe. revert w. induction s as [|c s IH]; intros w Hs.
  - cbn [app sh_run]. unfold sh_step. cbn [sh_at sh_mode sh_escape].
    fold (sh_at ShDouble ws (Some w)). change (N.eqb DQUOTE DQUOTE) with true.
    cbv iota. rewrite sh_set_mode_at. cbn [default]. now rewrite app_nil_r.
  - cbn [forallb] in Hs. apply andb_prop in Hs as [Hc Hs].
    apply negb_true_iff in Hc. apply orb_false_iff in Hc as [Hc H96].
    apply orb_false_iff in Hc as [Hc H36]. apply orb_false_iff in Hc as [Hdq Hbs].
    cbn [app sh_run]. unfold sh_step. cbn [sh_at sh_mode sh_escape].
    fold (sh_at ShDouble ws (Some w)). rewrite Hdq, Hbs, H36, H96. cbn [orb].
    rewrite sh_push_at. cbn [default]. rewrite IH by exact Hs. now rewrite <- app_assoc.
Qed.

Lemma sh_run_single (s rest : jsstring) (ws : list jsstring) (w : jsstring) :
  sq_safe s = true ->
  sh_run (sh_at ShSingle ws (Some w)) (s ++ SQUOTE :: rest)
  = sh_run (sh_at ShPlain ws (Some (w ++ s))) rest.
Proof.
  unfold sq_safe. revert w. induction s as [|c s IH]; intros w Hs.
  - cbn [app sh_run]. unfold sh_step. cbn [sh_at sh_mode sh_escape].
    fold (sh_at ShSingle ws (Some w)). change (N.eqb SQUOTE SQUOTE) with true.
    cbv iota. rewrite sh_set_mode_at. cbn [default]. now rewrite app_nil_r.
  - cbn [forallb] in Hs. apply andb_prop in Hs as [Hc Hs].
    apply negb_true_iff in Hc.
    cbn [app sh_run]. unfold sh_step. cbn [sh_at sh_mode sh_escape].
    fold (sh_at ShSingle ws (Some w)). rewrite Hc.
    rewrite sh_push_at. cbn [default]. rewrite IH by exact Hs. now rewrite <- app_assoc.
Qed.

Lemma sh_run_piece (p : Piece) (rest : jsstring) (ws : list jsstring) :
  piece_ok p = true ->
  sh_run (sh_at ShPlain ws None) (piece_text p ++ rest)
  = sh_run (sh_at ShPlain ws (Some (piece_value p))) rest.
Proof.
  destruct p as [s | s | s]; cbn [piece_ok piece_text piece_value]; intros Hs.
  - now apply sh_run_bare.
  - rewrite <- !app_assoc. cbn [app sh_run]. unfold sh_step at 1.
    cbn [sh_at sh_mode sh_escape]. fold (sh_at ShPlain ws None).
    change (N.eqb DQUOTE 32 || N.eqb DQUOTE 9) with false.
    change (N.eqb DQUOTE 59 || N.eqb DQUOTE 38 || N.eqb DQUOTE 124 || N.eqb DQUOTE NEWLINE)
      with false.
    change (N.eqb DQUOTE SQUOTE) with false. change (N.eqb DQUOTE DQUOTE) with true.
    cbv iota. rewrite sh_set_mode_at. cbn [default].
    now rewrite sh_run_double.
  - rewrite <- !app_assoc. cbn [app sh_run]. unfold sh_step at 1.
    cbn [sh_at sh_mode sh_escape]. fold (sh_at ShPlain ws None).
    change (N.eqb SQUOTE 32 || N.eqb SQUOTE 9) with false.
    change (N.eqb SQUOTE 59 || N.eqb SQUOTE 38 || N.eqb SQUOTE 124 || N.eqb SQUOTE NEWLINE)
      with false.
    change (N.eqb SQUOTE SQUOTE) with true.
    cbv iota. rewrite sh_set_mode_at. cbn [default].
    now rewrite sh_run_single.
Qed.

Lemma sh_run_trail (ps : list Piece) (ws : list jsstring) (w : jsstring) :
  forallb piece_ok ps = true ->
  sh_run (sh_at ShPlain ws (Some w)) (trail ps)
  = ShCommands [ws ++ w :: map piece_value ps].
Proof.
  revert ws w. induction ps as [|p ps IH]; intros ws w Hps.
  - cbn [trail flat_map sh_run sh_at sh_mode sh_escape]. fold (sh_at ShPlain ws (Some w)).
    unfold sh_end_command. rewrite sh_end_word_at.
    cbn [sh_at sh_done sh_words sh_word sh_mode map].
    rewrite rev_unit. cbn [rev app]. now rewrite rev_involutive.
  - cbn [forallb] in Hps. apply andb_prop in Hps as [Hp Hps].
    unfold trail. cbn [flat_map]. fold (trail ps).
    cbn [app sh_run]. unfold sh_step at 1. cbn [sh_at sh_mode sh_escape].
    fold (sh_at ShPlain ws (Some w)).
    change (N.eqb 32 32 || N.eqb 32 9) with true. cbv iota.
    rewrite sh_end_word_at, sh_run_piece by exact Hp.
    rewrite IH by exact Hps. cbn [map]. now rewrite <- app_assoc.
Qed.

(** A line of pieces that need no escaping is read as one command, whose
    words are the values of the pieces. *)
Lemma sh_read_pieces (p : Piece) (ps : list Piece) :
  piece_ok p = true -> forallb piece_ok ps = true ->
  sh_read (piece_text p ++ trail ps) = ShCommands [piece_value p :: map piece_value ps].
Proof.
  intros Hp Hps. unfold sh_read. change sh_init with (sh_at ShPlain [] None).
  rewrite sh_run_piece by exact Hp. now rewrite sh_run_trail.
Qed.

Lemma join_cons (sep p : jsstring) (rest : list jsstring) :
  join sep (p :: rest) = p ++ flat_map (fun q => sep ++ q) rest.
Proof.
  revert p. induction rest as [|q rest IH]; intros p.
  - cbn. now rewrite app_nil_r.
  - change (join sep (p :: q :: rest)) with (p ++ sep ++ join sep (q :: rest)).
    rewrite IH. cbn [flat_map]. now rewrite <- app_assoc.
Qed.

Lemma trail_app (ps qs : list Piece) : trail (ps ++ qs) = trail ps ++ trail qs.
Proof. apply flat_map_app. Qed.

Lemma replace_quotes_safe (d : jsstring) : sq_safe d = true -> replace_quotes d = d.
Proof.
  unfold sq_safe, replace_quotes. induction d as [|c d IH]; [reflexivity|].
  cbn [forallb flat_map]. intros H. apply andb_prop in H as [Hc Hd].
  apply negb_true_iff in Hc. rewrite Hc, IH by exact Hd. reflexivity.
Qed.

Lemma sq_safe_replace_quotes (d : jsstring) :
  sq_safe d = true -> sq_safe (replace_quotes d) = true.
Proof. intros H. now rewrite replace_quotes_safe. Qed.

Lemma dq_safe_app (s t : jsstring) : dq_safe (s ++ t) = dq_safe s && dq_safe t.
Proof. apply forallb_app. Qed.

(** A decimal numeral is a bare word. *)
Lemma plain_string_of_uint (d : Decimal.uint) :
  forallb sh_plain_unit (lit (NilEmpty.string_of_uint d)) = true.
Proof. induction d; [reflexivity | exact IHd ..]. Qed.

(** Numbers above 2^53 are printed as the double they are read as. *)
Example prints_of_large_numbers :
  map Number_toString
    [30; -5; 2 ^ 53 + 1; 2 ^ 64; 10 ^ 21; 123456789012345678901234; - 10 ^ 22; 10 ^ 400]
  = [lit "30"; lit "-5"; lit "9007199254740992"; lit "18446744073709552000"; lit "1e+21";
     lit "1.2345678901234569e+23"; lit "-1e+22"; lit "Infinity"].
Proof. vm_compute. reflexivity. Qed.

Lemma plain_numeral (n : Z) : forallb sh_plain_unit (numeral n) = true.
Proof.
  unfold numeral. destruct n as [|p|p]; [reflexivity | |].
  - rewrite (proj1 (string_of_positive p)). apply plain_string_of_uint.
  - rewrite (proj2 (string_of_positive p)).
    change (lit (String "-" ?s)) with (45%N :: lit s).
    cbn [forallb]. change (sh_plain_unit 45%N) with true. apply plain_string_of_uint.
Qed.

Lemma numeral_not_nil (n : Z) : is_nil (numeral n) = false.
Proof.
  unfold numeral. destruct n as [|p|p]; [reflexivity | |].
  - pose proof (strlen_numeral (Z.pos p) p ltac:(lia)) as [H _].
    unfold numeral in H. destruct (lit _); [unfold strlen in H; simpl in H; lia | reflexivity].
  - now rewrite (proj2 (string_of_positive p)).
Qed.

Lemma plain_strip_zeros (s : jsstring) :
  forallb sh_plain_unit s = true -> forallb sh_plain_unit (strip_zeros s) = true.
Proof.
  induction s as [|c s IH]; [reflexivity|]. intros H. cbn [strip_zeros].
  destruct (N.eqb c 48); [|exact H].
  cbn [forallb] in H. apply andb_prop in H as [_ H]. now apply IH.
Qed.

Lemma plain_rev (s : jsstring) :
  forallb sh_plain_unit s = true -> forallb sh_plain_unit (rev s) = true.
Proof.
  rewrite !forallb_forall. intros H c Hc. apply H. now apply in_rev.
Qed.

Lemma bare_exponential (c : Z) : bare_word (exponential c) = true.
Proof.
  unfold exponential, bare_word.
  pose proof (plain_rev _ (plain_strip_zeros _ (plain_rev _ (plain_numeral c)))) as Hsig.
  destruct (rev (strip_zeros (rev (numeral c)))) as [|d more].
  - now rewrite numeral_not_nil, plain_numeral.
  - cbn [forallb] in Hsig. apply andb_prop in Hsig as [Hd Hmore].
    cbn [app is_nil negb andb forallb]. rewrite Hd. cbn [andb].
    rewrite !forallb_app, plain_numeral.
    destruct more; [reflexivity|]. now rewrite forallb_app, Hmore.
Qed.

Lemma bare_Number_toString_positive (n : Z) :
  bare_word (Number_toString_positive n) = true.
Proof.
  unfold Number_toString_positive.
  assert (Hnum : forall k, bare_word (numeral k) = true).
  { intros k. unfold bare_word. now rewrite numeral_not_nil, plain_numeral. }
  destruct (n <=? 2 ^ 53); [apply Hnum|].
  destruct (to_double n) as [x|]; [|reflexivity].
  destruct (shortest 400 x 1 x <? 10 ^ 21); [apply Hnum | apply bare_exponential].
Qed.

(** Whatever the integer, its print is one bare word. *)
Lemma bare_Number_toString (n : Z) : bare_word (Number_toString n) = true.
Proof.
  unfold Number_toString. destruct (n <? 0); [|apply bare_Number_toString_positive].
  pose proof (bare_Number_toString_positive (- n)) as H. unfold bare_word in *.
  apply andb_prop in H as [_ H]. change (lit "-") with [45%N].
  cbn [app is_nil negb andb forallb]. now rewrite H.
Qed.

Lemma command_pieces (a : Args) :
  command a = piece_text (Bare (lit "curl")) ++ trail (pieces a).
Proof.
  unfold command, curlCmd, pieces. cbn zeta.
  change ([lit "curl"] ++ ?l) with (lit "curl" :: l).
  rewrite join_cons. cbn [piece_text]. f_equal.
  generalize (Number_toString (default 30 (timeout a))); intros t.
  generalize (default (lit "curl-mcp-server/1.1.0") (user_agent a)); intros ua.
  fold (guard_data a).
  change (truthy (data a) && includes [lit "POST"; lit "PUT"; lit "PATCH"]
                                (default (lit "GET") (method a)))
    with (guard_data a).
  generalize (guard_data a); intros g.
  generalize (replace_quotes (default [] (data a))); intros d.
  generalize (default (lit "GET") (method a)); intros m.
  generalize (default [] (headers a)); intros hs.
  generalize (default true (follow_redirects a)); intros fr.
  generalize (default false (include_headers a)); intros ih.
  generalize (url a); intros u.
  rewrite !flat_map_app, !trail_app.
  repeat match goal with
         | |- ?x ++ _ = ?y ++ _ => f_equal
         end.
  all: try (cbn; rewrite <- ?app_assoc; reflexivity).
  all: try (destruct fr; reflexivity).
  all: try (destruct ih; reflexivity).
  all: try (destruct g; cbn; rewrite <- ?app_assoc; reflexivity).
  induction hs as [|[k v] hs IH]; [reflexivity|].
  cbn [map flat_map fst snd]. rewrite IH, trail_app. f_equal.
  cbn. rewrite <- ?app_assoc. reflexivity.
Qed.

Lemma command_download_pieces (a : Download.Args) :
  Download.command a = piece_text (Bare (lit "curl")) ++ trail (download_pieces a).
Proof.
  unfold Download.command, Download.curlCmd, download_pieces. cbn zeta.
  change ([lit "curl"] ++ ?l) with (lit "curl" :: l).
  rewrite join_cons. cbn [piece_text]. f_equal.
  generalize (Number_toString (default 300 (Download.timeout a))); intros t.
  generalize (default true (Download.follow_redirects a)); intros fr.
  generalize (Download.output_path a); intros o.
  generalize (Download.url a); intros u.
  rewrite !flat_map_app, !trail_app.
  repeat match goal with
         | |- ?x ++ _ = ?y ++ _ => f_equal
         end.
  all: try (cbn; rewrite <- ?app_assoc; reflexivity).
  destruct fr; reflexivity.
Qed.

Lemma pieces_values (a : Args) :
  sq_safe (default [] (data a)) = true ->
  lit "curl" :: map piece_value (pieces a) = argv a.
Proof.
  intros Hd. unfold pieces, argv. rewrite (replace_quotes_safe _ Hd).
  assert (Hh : forall hs : list (jsstring * jsstring),
             map piece_value
               (flat_map (fun kv => [Bare (lit "--header");
                                     Double (fst kv ++ lit ": " ++ snd kv)]) hs)
             = flat_map (fun kv => [lit "--header"; fst kv ++ lit ": " ++ snd kv]) hs).
  { induction hs as [|kv hs IH]; [reflexivity|]. cbn [flat_map map app piece_value].
    now rewrite IH. }
  rewrite !map_app, Hh.
  destruct (default true (follow_redirects a)), (default false (include_headers a)),
    (guard_data a); reflexivity.
Qed.

Lemma download_pieces_values (a : Download.Args) :
  lit "curl" :: map piece_value (download_pieces a) = download_argv a.
Proof.
  unfold download_pieces, download_argv. rewrite !map_app.
  destruct (default true (Download.follow_redirects a)); reflexivity.
Qed.

Lemma pieces_ok (a : Args) : safe_request a = true -> forallb piece_ok (pieces a) = true.
Proof.
  unfold safe_request. intros H.
  apply andb_prop in H as [H Hd]. apply andb_prop in H as [H Hh].
  apply andb_prop in H as [H Hm]. apply andb_prop in H as [Hu Hua].
  unfold pieces. rewrite !forallb_app. cbn [forallb piece_ok].
  rewrite bare_Number_toString, Hua, Hm, Hu, !andb_true_r.
  change (bare_word (lit "--max-time")) with true.
  change (bare_word (lit "--user-agent")) with true.
  change (bare_word (lit "--silent")) with true.
  change (bare_word (lit "--show-error")) with true.
  change (bare_word (lit "--request")) with true.
  cbn [andb].
  assert (Hhs : forallb piece_ok
                  (flat_map (fun kv => [Bare (lit "--header");
                                        Double (fst kv ++ lit ": " ++ snd kv)])
                            (default [] (headers a))) = true).
  { induction (default [] (headers a)) as [|[k v] hs IH]; [reflexivity|].
    cbn [forallb fst snd] in Hh. apply andb_prop in Hh as [Hkv Hh].
    apply andb_prop in Hkv as [Hk Hv].
    cbn [flat_map app forallb piece_ok fst snd]. rewrite !dq_safe_app, Hk, Hv, (IH Hh).
    reflexivity. }
  rewrite Hhs.
  destruct (default true (follow_redirects a)), (default false (include_headers a)),
    (guard_data a); cbn [forallb piece_ok andb];
    rewrite ?(sq_safe_replace_quotes _ Hd); reflexivity.
Qed.

Lemma download_pieces_ok (a : Download.Args) :
  safe_download a = true -> forallb piece_ok (download_pieces a) = true.
Proof.
  unfold safe_download. intros H. apply andb_prop in H as [Hu Ho].
  unfold download_pieces. rewrite !forallb_app. cbn [forallb piece_ok].
  rewrite bare_Number_toString, Hu, Ho.
  destruct (default true (Download.follow_redirects a)); reflexivity.
Qed.

(** X10. For a request whose arguments have the declared types, the
    timeout an integer, and none of whose values needs escaping (no double
    quote, backslash, dollar or backquote in the URL, the user agent and
    the headers, no single quote in the body, a method that is one bare
    word), the shell reads the command line as exactly one command, whose
    words are [curl], the options in the order of the source, each value as
    it was given, the timeout as JavaScript prints the number, and the URL
    last. *)
Theorem safe_request_is_read_as_argv (a : Args) :
  safe_request a = true -> sh_read (command a) = ShCommands [argv a].
Proof.
  intros Hsafe. rewrite command_pieces, sh_read_pieces.
  - cbn [piece_value]. rewrite pieces_values; [reflexivity|].
    unfold safe_request in Hsafe. now apply andb_prop in Hsafe as [_ Hd].
  - reflexivity.
  - now apply pieces_ok.
Qed.

Lemma safe_request_is_read_as_argv_witness :
  let a := with_timeout (10 ^ 21)
             (with_headers [(lit "Content-Type", lit "application/json")]
                (with_data (lit "{ name : John Doe }")
                   (with_method (lit "POST")
                      (request (lit "https://httpbin.org/post?a=1&b=2"))))) in
  sh_read (command a)
  = ShCommands [[lit "curl"; lit "--max-time"; lit "1e+21"; lit "--user-agent";
                 lit "curl-mcp-server/1.1.0"; lit "--silent"; lit "--show-error";
                 lit "--location"; lit "--request"; lit "POST";
                 lit "--header"; lit "Content-Type: application/json";
                 lit "--data"; lit "{ name : John Doe }";
                 lit "https://httpbin.org/post?a=1&b=2"]].
Proof.
  intros a. exact (safe_request_is_read_as_argv a eq_refl).
Defined.

(** X11. For a download whose arguments have the declared types, the
    timeout an integer, when neither the URL nor the output path holds a
    double quote, a backslash, a dollar or a backquote, the shell reads the
    command line as exactly one command: [curl], the options in the order of
    the source, the timeout as JavaScript prints the number, the output path
    after [--output], and the URL last. *)
Theorem safe_download_is_read_as_argv (a : Download.Args) :
  safe_download a = true -> sh_read (Download.command a) = ShCommands [download_argv a].
Proof.
  intros Hsafe. rewrite command_download_pieces, sh_read_pieces.
  - cbn [piece_value]. now rewrite download_pieces_values.
  - reflexivity.
  - now apply download_pieces_ok.
Qed.

Lemma safe_download_is_read_as_argv_witness :
  let a := download (lit "https://example.com/file.zip") (lit "/tmp/my downloads/file.zip") in
  sh_read (Download.command a)
  = ShCommands [[lit "curl"; lit "--max-time"; lit "300"; lit "--silent";
                 lit "--show-error"; lit "--progress-bar"; lit "--location";
                 lit "--output"; lit "/tmp/my downloads/file.zip";
                 lit "https://example.com/file.zip"]].
Proof.
  intros a. exact (safe_download_is_read_as_argv a eq_refl).
Defined.

(** ** Responses that carry the response headers *)

Lemma byte_truncate_prefix (stdout : jsstring) (m : Z) :
  0 <= m -> fst (fst (byte_truncate stdout m)) = firstn (Z.to_nat m) stdout.
Proof.
  intros Hm. unfold byte_truncate. destruct (strlen stdout >? m) eqn:Hcmp; cbn [fst].
  - now apply substring_prefix.
  - apply gtb_false_inv in Hcmp. symmetry. apply firstn_all2. unfold strlen in Hcmp. lia.
Qed.

(** A text whose first character cannot start a JSON text is not JSON. *)
Lemma JSON_parse_first (c : code_unit) (s : jsstring) :
  lex_start [] c = None -> JSON_parse (c :: s) = None.
Proof.
  intros H. unfold JSON_parse, parse_syntax, lex. cbn [lex_run lex_step]. now rewrite H.
Qed.

(** X12. An output that begins with a status line, as curl prints it
    under [--include], is never taken for JSON: with a positive limit the
    text of the result is the output itself, cut to the limit, so the body
    is neither re-printed nor reduced to its first 100 entries. *)
Theorem status_line_is_never_parsed (h : Host) (a : Args) (stdout stderr : jsstring)
  (log : list jsstring)
  (Hrun : call (run_curl h a) = (inr (stdout, stderr), log))
  (Hlimit : 0 < default 800000 (max_response_size a))
  (Hhead : starts_with (lit "HTTP/") stdout = true) :
  call (V120.handleCurlRequest h a)
  = (inr {| text := firstn (Z.to_nat (default 800000 (max_response_size a))) stdout;
            isError := false |}, log).
Proof.
  apply (handler_text h a stdout stderr _ _ Hrun).
  rewrite byte_truncate_prefix by lia. apply final_text_plain.
  unfold starts_with in Hhead. apply jsstring_eqb_eq in Hhead.
  destruct stdout as [|c r]; [discriminate Hhead|].
  change (length (lit "HTTP/")) with 5%nat in Hhead. cbn [firstn] in Hhead.
  injection Hhead as Hc _. subst c.
  destruct (Z.to_nat (default 800000 (max_response_size a))) as [|n] eqn:Hn; [lia|].
  cbn [firstn]. now apply JSON_parse_first.
Qed.

Lemma status_line_is_never_parsed_witness :
  let out := lit "HTTP/1.1 200 OK" ++ [13; 10; 13; 10]%N ++ lit "[1,2]" in
  let h := printing_host out in
  let a := with_include_headers true (request (lit "http://example.com/")) in
  call (V120.handleCurlRequest h a) = (inr {| text := out; isError := false |}, [command a]).
Proof.
  intros out h a.
  exact (status_line_is_never_parsed h a out [] [command a] eq_refl eq_refl eq_refl).
Defined.
